(** * hyper-sam: the server runtime helpers of src/control/server.mjs

    - [Props]: [ssrDefaultProps], over a heap of JavaScript objects.
    - [Server]: [ssrDispatch] as it runs on the server, producing the text of
      an inline event handler.
    - [Browser]: the browser's reading and evaluation of that text as the
      body of an inline event handler.
    - [Json]: plain JSON argument values, their [JSON.stringify] text and
      what the browser reads that text as.
    - [DispatchFacts]: lexing, bracketing, parsing and running the text
      [ssrDispatch] produces.
    - [PropsFacts], [PropsClaims], [DispatchClaims]: the claims.
    - [DispatchExtras], [PropsExtras]: further properties of the two
      functions: the other kinds of names, handlers and arguments, and the
      error cases. *)

From Stdlib Require Import String Ascii ZArith List Bool Lia.
From stdpp Require Import base gmap strings.
Import ListNotations.
Set Warnings "-register-all".

Module Props.

(** ** JavaScript values and the heap *)

Definition loc := N.

Inductive value :=
  | VUndefined
  | VNull
  | VBool (b : bool)
  | VNum (n : Z)
  | VStr (s : string)
  | VRef (l : loc).

(** An object: its [[Prototype]] ([None] is a null prototype), its own data
    properties in creation order, and whether it is callable. *)
Record obj := mkObj { proto : option loc; props : list (string * value); callable : bool }.

Abbreviation heap := (gmap loc obj).

(** The world seen by the function: the heap and the log of the calls it made
    to functions it was given (callee and arguments). *)
Record world := mkWorld { wheap : heap; wcalls : list (loc * list value) }.

Inductive res (A : Type) :=
  | Ok (a : A) (w : world)
  | Throw (msg : string) (w : world).
Arguments Ok {A} a w.
Arguments Throw {A} msg w.

Definition M (A : Type) := world -> res A.

Definition ret {A} (a : A) : M A := fun w => Ok a w.
Definition bind {A B} (m : M A) (k : A -> M B) : M B :=
  fun w => match m w with Ok a w' => k a w' | Throw e w' => Throw e w' end.
Definition throw {A} (msg : string) : M A := fun w => Throw msg w.

Notation "'let*' x ':=' m 'in' k" := (bind m (fun x => k))
  (at level 200, x name, m at level 100, k at level 200).

Fixpoint assoc (k : string) (ps : list (string * value)) : option value :=
  match ps with
  | [] => None
  | (k', v) :: ps' => if String.eqb k k' then Some v else assoc k ps'
  end.

(** [[Get]] on an object: own data property, else up the prototype chain
    (the fuel bounds the chain, which is acyclic in a JavaScript heap). *)
Fixpoint get_from (fuel : nat) (h : heap) (l : loc) (k : string) : value :=
  match fuel with
  | O => VUndefined
  | S fuel' =>
      match h !! l with
      | None => VUndefined
      | Some o =>
          match assoc k (props o) with
          | Some v => v
          | None =>
              match proto o with
              | None => VUndefined
              | Some p => get_from fuel' h p k
              end
          end
      end
  end.

Definition get (h : heap) (l : loc) (k : string) : value :=
  get_from (S (map_size h)) h l k.

(** Property read [v.k]: a TypeError on [undefined] and [null]; the standard
    prototypes of the other primitives carry none of the names read here. *)
Definition get_prop (v : value) (k : string) : M value :=
  fun w =>
    match v with
    | VUndefined | VNull => Throw "TypeError" w
    | VRef l => Ok (get (wheap w) l k) w
    | _ => Ok VUndefined w
    end.

Section WithCalls.

(** The effect of running a function the caller supplied: the callee, the
    arguments and the heap in, the result and the heap out, or [None] when it
    throws. *)
Variable ext_call : loc -> list value -> heap -> option (value * heap).

Definition call (f : value) (args : list value) : M value :=
  fun w =>
    match f with
    | VRef l =>
        match wheap w !! l with
        | Some o =>
            if callable o then
              let w1 := mkWorld (wheap w) (wcalls w ++ [(l, args)]) in
              match ext_call l args (wheap w) with
              | Some (r, h') => Ok r (mkWorld h' (wcalls w1))
              | None => Throw "exception" w1
              end
            else Throw "TypeError" w
        | None => Throw "TypeError" w
        end
    | _ => Throw "TypeError" w
    end.

(** Allocation of a fresh object. *)
Definition alloc (o : obj) : M loc :=
  fun w => let l := fresh (dom (wheap w)) in
           Ok l (mkWorld (<[l := o]> (wheap w)) (wcalls w)).

(** [Object.create(null)] *)
Definition object_create_null : obj := mkObj None [] false.

Definition object_prototype : loc := 0%N.

(** [[Set]] of a data property on an ordinary object without setters in its
    chain: overwrite the own property or append a new one. *)
Fixpoint set_own (ps : list (string * value)) (k : string) (v : value) :=
  match ps with
  | [] => [(k, v)]
  | (k', v') :: ps' => if String.eqb k k' then (k', v) :: ps' else (k', v') :: set_own ps' k v
  end.

(** [Object.assign(target, source)] for one source: its own enumerable
    properties, in order, set on the target. *)
Definition object_assign (target source : obj) : obj :=
  mkObj (proto target)
        (fold_left (fun ps kv => set_own ps (fst kv) (snd kv)) (props source) (props target))
        (callable target).

(** ** [ssrDefaultProps]

<<
export const ssrDefaultProps = ({ state, dispatch, wire }) => {
    return Object.assign(Object.create(null), {
        state,
        actions: Object.create(null),
        dispatch,
        render: wire(),
        _wire: wire,
    });
};
>>
    The objects the function creates (the target, the [actions] object and
    the literal) are reachable by no other code before it returns, so the
    call [wire()] cannot observe or change them: they are placed in the heap
    once [wire()] has returned. *)
Definition ssrDefaultProps (input : value) : M value :=
  let* state := get_prop input "state" in
  let* dispatch := get_prop input "dispatch" in
  let* wire := get_prop input "wire" in
  let target := object_create_null in
  let* render := call wire [] in
  let* actions := alloc object_create_null in
  let literal := mkObj (Some object_prototype)
                       [("state", state); ("actions", VRef actions);
                        ("dispatch", dispatch); ("render", render); ("_wire", wire)]
                       false in
  let* p := alloc (object_assign target literal) in
  ret (VRef p).

End WithCalls.

(** ** A concrete world, used by the examples

    Location 0 is [Object.prototype]; 1 is the argument object
    [{ state, dispatch, wire }]; 2 the [wire] function; 3 the State; 4 the
    [dispatch] function. *)
Definition demo_input : obj :=
  mkObj (Some object_prototype) [("state", VRef 3%N); ("dispatch", VRef 4%N); ("wire", VRef 2%N)] false.

Definition demo_heap : heap :=
  <[0%N := mkObj None [] false]> (<[1%N := demo_input]> (<[2%N := mkObj (Some 0%N) [] true]>
  (<[3%N := mkObj (Some 0%N) [("foo", VBool true)] false]> (<[4%N := mkObj (Some 0%N) [] true]> ∅)))).

Definition demo_world : world := mkWorld demo_heap [].

(** A [wire] that returns a fresh tag function on each call. *)
Definition wire_fresh (f : loc) (args : list value) (h : heap) : option (value * heap) :=
  let l := fresh (dom h) in Some (VRef l, <[l := mkObj (Some 0%N) [] true]> h).

(** A [wire] that returns itself: [const wire = () => wire]. *)
Definition wire_self (f : loc) (args : list value) (h : heap) : option (value * heap) :=
  Some (VRef f, h).

End Props.

(** ** JavaScript values shared by the server and the browser side *)
Module JS.
Local Open Scope string_scope.

(** Tokens of JavaScript source text, and token trees: a bracketed group
    holds the trees between an opening bracket and its matching closing one. *)
Inductive token :=
  | TIdent (s : string)      (* identifiers and keywords *)
  | TStr (s : string)        (* a string literal, by its value *)
  | TNum (digits : string)   (* a decimal integer literal *)
  | TPunct (c : ascii)       (* a one-character punctuator *)
  | TArrow.                  (* => *)

Inductive bracket := Paren | Square | Curly.

Inductive tree :=
  | TTok (t : token)
  | TGroup (b : bracket) (ts : list tree).

(** Values. [JObj] is an ordinary object, its own properties listed in
    [[OwnPropertyKeys]] order; [JFun] a function object handed to the server
    code (an identity, the text [Function.prototype.toString] returns, own
    properties); [JClo] a function the browser created by evaluating a
    function expression (parameters and body); [JHost] a host object of the
    browser reached through a path of names ([window.dispatcher], the event,
    the element). Numbers are modelled by their integer values. *)
Inductive jsv :=
  | JUndef
  | JNull
  | JBool (b : bool)
  | JNum (n : Z)
  | JStr (s : string)
  | JArr (elems : list jsv)
  | JObj (proto : jproto) (props : list (string * jsv))
  | JFun (fid : nat) (src : string) (props : list (string * jsv))
  | JClo (params : list tree) (body : list tree)
  | JHost (path : list string)
with jproto :=
  | PObject        (* Object.prototype *)
  | PNull          (* null *)
  | PVal (v : jsv).

Fixpoint assoc {A : Type} (k : string) (ps : list (string * A)) : option A :=
  match ps with
  | [] => None
  | (k', v) :: ps' => if String.eqb k k' then Some v else assoc k ps'
  end.

(** [[Get]] of a property on an object value, up its prototype chain;
    [Object.prototype] and [Function.prototype] are taken to hold none of the
    names looked up here other than [toString], handled by [to_string]. *)
Fixpoint lookup (v : jsv) (k : string) : option jsv :=
  match v with
  | JObj pr ps =>
      match assoc k ps with
      | Some x => Some x
      | None => match pr with PVal p => lookup p k | _ => None end
      end
  | JFun _ _ ps => assoc k ps
  | _ => None
  end.

(** Whether the prototype chain of an object ends in [Object.prototype]. *)
Fixpoint inherits_object_prototype (v : jsv) : bool :=
  match v with
  | JObj PObject _ => true
  | JObj PNull _ => false
  | JObj (PVal p) _ => inherits_object_prototype p
  | _ => false
  end.

Definition nl : string := String (ascii_of_nat 10) EmptyString.

(** Decimal digits of a natural number. *)
Definition digit_char (d : N) : ascii := ascii_of_N (48 + d).

Fixpoint n_digits (fuel : nat) (n : N) (acc : string) : string :=
  match fuel with
  | O => String (digit_char (n mod 10)%N) acc
  | S fuel' =>
      if (n <? 10)%N then String (digit_char n) acc
      else n_digits fuel' (n / 10)%N (String (digit_char (n mod 10)%N) acc)
  end.

Definition n_to_decimal (n : N) : string := n_digits (N.size_nat n) n EmptyString.

(** The decimal digits of an integer, after a minus sign when it is
    negative. *)
Definition z_to_decimal (z : Z) : string :=
  match z with
  | Z0 => "0"
  | Zpos p => n_to_decimal (Npos p)
  | Zneg p => String "-" (n_to_decimal (Npos p))
  end.

(** The integers of magnitude at most 2^53, the modelled numbers: each one
    is a double, no other integer rounds to the same double, and
    [Number::toString] writes it as [z_to_decimal] does (no exponent below
    1e21, and no shorter digit string denotes the same double). Larger
    integers, fractions, NaN, the infinities and -0 are not modelled. *)
Definition num_safe (z : Z) : bool := (Z.abs z <=? 2 ^ 53)%Z.

(** [Number::toString] on a modelled number; [None] on the others. *)
Definition num_to_string (z : Z) : option string :=
  if num_safe z then Some (z_to_decimal z) else None.

End JS.

(** ** [ssrDispatch] on the server

<<
export const ssrDispatch = (_name, _handler, ..._args) => `{
    const name = '${_name}';
    const handler = (${_handler});
    const args = ${JSON.stringify(_args)};
    window.dispatcher.toReplay.push({
        name,
        handler,
        args,
        target: this,
        event,
    });
}`;
>>
    The template literal converts [_name] and [_handler] with ToString and
    embeds [JSON.stringify(_args)]. Both conversions may run code of the
    arguments ([toString] and [toJSON] methods): such calls are recorded. *)
Module Server.
Import JS.
Local Open Scope string_scope.

(** A call of a user function: its identity, [this] and the arguments. *)
Record call := mkCall { c_fn : nat; c_this : jsv; c_args : list jsv }.

Inductive sres (A : Type) :=
  | SOk (a : A) (tr : list call)
  | SErr (e : string) (tr : list call).
Arguments SOk {A} a tr.
Arguments SErr {A} e tr.

Definition SM (A : Type) := list call -> sres A.

Definition sret {A} (a : A) : SM A := fun tr => SOk a tr.
Definition serr {A} (e : string) : SM A := fun tr => SErr e tr.
Definition sbind {A B} (m : SM A) (k : A -> SM B) : SM B :=
  fun tr => match m tr with SOk a tr' => k a tr' | SErr e tr' => SErr e tr' end.

Notation "'let+' x ':=' m 'in' k" := (sbind m (fun x => k))
  (at level 200, x name, m at level 100, k at level 200).

(** JSON's escaping of one character (QuoteJSONString): the short escapes,
    [\u00XX] with lower-case hex digits for the other control characters. *)
Definition hex_digit (n : nat) : ascii :=
  if Nat.ltb n 10 then ascii_of_nat (48 + n) else ascii_of_nat (87 + n).

Definition json_escape (c : ascii) : string :=
  let n := nat_of_ascii c in
  if Nat.eqb n 8 then "\b"
  else if Nat.eqb n 9 then "\t"
  else if Nat.eqb n 10 then "\n"
  else if Nat.eqb n 12 then "\f"
  else if Nat.eqb n 13 then "\r"
  else if Nat.eqb n 34 then String "\" (String (ascii_of_nat 34) EmptyString)
  else if Nat.eqb n 92 then "\\"
  else if Nat.ltb n 32 then
    String "\" (String "u" (String "0" (String "0"
      (String (hex_digit (n / 16)) (String (hex_digit (n mod 16)) EmptyString)))))
  else String c EmptyString.

Fixpoint json_escape_all (s : string) : string :=
  match s with
  | EmptyString => EmptyString
  | String c s' => json_escape c ++ json_escape_all s'
  end.

Definition dq : string := String (ascii_of_nat 34) EmptyString.

Definition quote_json_string (s : string) : string := dq ++ json_escape_all s ++ dq.

Fixpoint join (sep : string) (ss : list string) : string :=
  match ss with
  | [] => EmptyString
  | [s] => s
  | s :: ss' => s ++ sep ++ join sep ss'
  end.

Definition nat_key (i : nat) : string := n_to_decimal (N.of_nat i).

Definition is_primitive (v : jsv) : bool :=
  match v with JUndef | JNull | JBool _ | JNum _ | JStr _ => true | _ => false end.

(** ToString of a primitive; [None] on a number that is not modelled (and
    on the non-primitive values, which do not reach it). *)
Definition prim_to_string (v : jsv) : option string :=
  match v with
  | JUndef => Some "undefined"
  | JNull => Some "null"
  | JBool b => Some (if b then "true" else "false")
  | JNum n => num_to_string n
  | JStr s => Some s
  | _ => None
  end.

Definition prim_result (o : option string) : SM string :=
  match o with Some s => sret s | None => serr "unsupported" end.

Section WithUserCode.

(** The result of calling a user function (identity, [this], arguments), or
    [None] when it throws. *)
Variable user_fn : nat -> jsv -> list jsv -> option jsv.
(** The recursion depth the engine allows before a RangeError. *)
Variable limit : nat.

Definition call_fn (fid : nat) (this : jsv) (args : list jsv) : SM jsv :=
  fun tr =>
    let tr' := (tr ++ [mkCall fid this args])%list in
    match user_fn fid this args with
    | Some r => SOk r tr'
    | None => SErr "exception" tr'
    end.

(** A [toString] (or [valueOf]) method found on an object: call it; a
    primitive result is converted (a method that is not a function, or a
    result that is an object, is not modelled). *)
Definition call_to_string (m : jsv) (this : jsv) : SM string :=
  match m with
  | JFun g _ _ =>
      let+ r := call_fn g this [] in
      if is_primitive r then prim_result (prim_to_string r) else serr "unsupported"
  | _ => serr "unsupported"
  end.

(** ToString. Arrays convert through [Array.prototype.join]; an ordinary
    object through OrdinaryToPrimitive with hint string: its [toString],
    else its [valueOf], else a TypeError. Property keys are strings in the
    model, so no object has a [Symbol.toPrimitive] method. *)
Fixpoint to_string (v : jsv) : SM string :=
  match v with
  | JArr es =>
      let fix elems (es : list jsv) : SM (list string) :=
        match es with
        | [] => sret []
        | e :: es' =>
            let+ s := (match e with JUndef | JNull => sret EmptyString | _ => to_string e end) in
            let+ rest := elems es' in
            sret (s :: rest)
        end in
      let+ parts := elems es in
      sret (join "," parts)
  | JObj _ _ =>
      match lookup v "toString" with
      | Some m => call_to_string m v
      | None =>
          if inherits_object_prototype v then sret "[object Object]"
          else match lookup v "valueOf" with
               | Some m => call_to_string m v
               | None => serr "TypeError"
               end
      end
  | JFun _ src ps =>
      match assoc "toString" ps with
      | Some m => call_to_string m v
      | None => sret src
      end
  | JClo _ _ | JHost _ => serr "unsupported"
  | _ => prim_result (prim_to_string v)
  end.

(** SerializeJSONProperty for a value [v] under [key]: [None] when the
    result is [undefined]. A [toJSON] method of an object value is called
    first, with the key. The fuel is the engine's recursion depth. *)
Fixpoint ser_prop (n : nat) (key : string) (v : jsv) : SM (option string) :=
  match n with
  | O => serr "RangeError"
  | S n' =>
      let+ v' := (match v with
                  | JObj _ _ | JArr _ | JFun _ _ _ =>
                      match lookup v "toJSON" with
                      | Some (JFun g _ _) => call_fn g v [JStr key]
                      | _ => sret v
                      end
                  | _ => sret v
                  end) in
      match v' with
      | JNull => sret (Some "null")
      | JBool b => sret (Some (if b then "true" else "false"))
      | JNum z => match num_to_string z with Some t => sret (Some t) | None => serr "unsupported" end
      | JStr s => sret (Some (quote_json_string s))
      | JUndef | JFun _ _ _ | JClo _ _ => sret None
      | JArr es =>
          let fix elems (i : nat) (es : list jsv) : SM (list string) :=
            match es with
            | [] => sret []
            | e :: es' =>
                let+ s := ser_prop n' (nat_key i) e in
                let+ rest := elems (S i) es' in
                sret (match s with Some t => t | None => "null" end :: rest)
            end in
          let+ parts := elems 0 es in
          sret (Some ("[" ++ join "," parts ++ "]"))
      | JObj _ ps =>
          let fix members (ps : list (string * jsv)) : SM (list string) :=
            match ps with
            | [] => sret []
            | (k, e) :: ps' =>
                let+ s := ser_prop n' k e in
                let+ rest := members ps' in
                sret (match s with
                      | Some t => (quote_json_string k ++ ":" ++ t) :: rest
                      | None => rest
                      end)
            end in
          let+ parts := members ps in
          sret (Some ("{" ++ join "," parts ++ "}"))
      | JHost _ => serr "unsupported"
      end
  end.

(** [JSON.stringify(v)]: [None] for [undefined]. *)
Definition json_stringify (v : jsv) : SM (option string) := ser_prop limit EmptyString v.

(** The text of the generated handler, from the three substituted strings. *)
Definition dispatch_text (name handler args : string) : string :=
  "{" ++ nl ++
  "    const name = '" ++ name ++ "';" ++ nl ++
  "    const handler = (" ++ handler ++ ");" ++ nl ++
  "    const args = " ++ args ++ ";" ++ nl ++
  "    window.dispatcher.toReplay.push({" ++ nl ++
  "        name," ++ nl ++
  "        handler," ++ nl ++
  "        args," ++ nl ++
  "        target: this," ++ nl ++
  "        event," ++ nl ++
  "    });" ++ nl ++
  "}".

Definition ssrDispatch (_name _handler : jsv) (_args : list jsv) : SM string :=
  let+ s1 := to_string _name in
  let+ s2 := to_string _handler in
  let+ j := json_stringify (JArr _args) in
  sret (dispatch_text s1 s2 (match j with Some t => t | None => "undefined" end)).

End WithUserCode.

End Server.

(** ** The browser: reading the handler text

    The markup carries the text as an [onclick]-style attribute; the browser
    compiles it as the body of [function (event) { ... }] with [this] bound to
    the element, and runs it when the event fires. The model reads the text
    as JavaScript source: a lexer, token trees, a parser and an evaluator for
    the part of the language the generated text is made of. Each stage
    reports a [SyntaxError] only where JavaScript itself rejects the text,
    and [Unsupported] for anything outside the modelled part. *)
Module Browser.
Import JS.
Local Open Scope string_scope.
Local Open Scope list_scope.

(** *** Lexer *)

Definition code (c : ascii) : nat := nat_of_ascii c.
Definition chr (n : nat) : ascii := ascii_of_nat n.

Definition is_digit (c : ascii) : bool := Nat.leb 48 (code c) && Nat.leb (code c) 57.
Definition is_ident_start (c : ascii) : bool :=
  (Nat.leb 65 (code c) && Nat.leb (code c) 90) || (Nat.leb 97 (code c) && Nat.leb (code c) 122)
  || Nat.eqb (code c) 95 || Nat.eqb (code c) 36.
Definition is_ident_part (c : ascii) : bool := is_ident_start c || is_digit c.
(** Space, tab, vertical tab, form feed; line feed and carriage return. *)
Definition is_space (c : ascii) : bool :=
  Nat.eqb (code c) 32 || Nat.eqb (code c) 9 || Nat.eqb (code c) 11 || Nat.eqb (code c) 12.
Definition is_line_terminator (c : ascii) : bool := Nat.eqb (code c) 10 || Nat.eqb (code c) 13.
(** Punctuator characters read as one-character tokens. A slash (comment,
    regular expression or division), a backtick (template literal), [#] and
    [\] are not modelled. *)
Definition is_punct (c : ascii) : bool :=
  existsb (fun n => Nat.eqb (code c) n)
    [33; 37; 38; 40; 41; 42; 43; 44; 45; 46; 58; 59; 60; 62; 63; 64; 91; 93; 94; 123; 124; 125; 126].

Definition hex_value (c : ascii) : option nat :=
  let n := code c in
  if is_digit c then Some (n - 48)
  else if Nat.leb 97 n && Nat.leb n 102 then Some (n - 87)
  else if Nat.leb 65 n && Nat.leb n 70 then Some (n - 55)
  else None.

Definition snoc (s : string) (c : ascii) : string := String.append s (String c EmptyString).

Inductive lstate :=
  | LNormal
  | LNL                                            (* after a line terminator *)
  | LIdent (acc : string)
  | LNum (acc : string)
  | LEq                                            (* after = *)
  | LEqNL                                          (* after a line terminator and = *)
  | LStr (q : ascii) (acc : string)                (* in a string literal *)
  | LEsc (q : ascii) (acc : string)                (* after a backslash *)
  | LZero (q : ascii) (acc : string)               (* after \0 *)
  | LHex (q : ascii) (acc : string) (count val : nat). (* in \xHH or \uHHHH *)

Inductive lres :=
  | LOk (st : lstate) (toks : list token)
  | LSyntax
  | LUnsup.

(** A character in the normal state. *)
Definition normal_step (c : ascii) : lres :=
  if is_space c then LOk LNormal []
  else if is_line_terminator c then LOk LNL []
  else if is_ident_start c then LOk (LIdent (String c EmptyString)) []
  else if is_digit c then LOk (LNum (String c EmptyString)) []
  else if Nat.eqb (code c) 39 || Nat.eqb (code c) 34 then LOk (LStr c EmptyString) []
  else if Nat.eqb (code c) 61 then LOk LEq []
  else if is_punct c then LOk LNormal [TPunct c]
  else LUnsup.

(** The tokens a state holds back, when the next character ends them. *)
Definition emit_then (ts : list token) (r : lres) : lres :=
  match r with
  | LOk st ts' => LOk st (ts ++ ts')
  | e => e
  end.

(** A character after a backslash in a string literal. *)
Definition escape_step (q : ascii) (acc : string) (c : ascii) : lres :=
  let n := code c in
  if Nat.eqb n 110 then LOk (LStr q (snoc acc (chr 10))) []       (* \n *)
  else if Nat.eqb n 116 then LOk (LStr q (snoc acc (chr 9))) []   (* \t *)
  else if Nat.eqb n 114 then LOk (LStr q (snoc acc (chr 13))) []  (* \r *)
  else if Nat.eqb n 98 then LOk (LStr q (snoc acc (chr 8))) []    (* \b *)
  else if Nat.eqb n 102 then LOk (LStr q (snoc acc (chr 12))) []  (* \f *)
  else if Nat.eqb n 118 then LOk (LStr q (snoc acc (chr 11))) []  (* \v *)
  else if Nat.eqb n 48 then LOk (LZero q acc) []                  (* \0 *)
  else if is_digit c then LUnsup                                  (* legacy octal, \8, \9 *)
  else if Nat.eqb n 120 then LOk (LHex q acc 2 0) []              (* \xHH *)
  else if Nat.eqb n 117 then LOk (LHex q acc 4 0) []              (* \uHHHH *)
  else if Nat.eqb n 10 then LOk (LStr q acc) []                   (* line continuation *)
  else if Nat.eqb n 13 then LUnsup
  else LOk (LStr q (snoc acc c)) [].                              (* the quotes, the backslash, the rest *)

Definition step (st : lstate) (c : ascii) : lres :=
  match st with
  | LNormal => normal_step c
  | LNL =>
      if is_space c || is_line_terminator c then LOk LNL []
      else if Nat.eqb (code c) 61 then LOk LEqNL []
      else normal_step c
  | LIdent acc =>
      if is_ident_part c then LOk (LIdent (snoc acc c)) []
      else emit_then [TIdent acc] (normal_step c)
  | LNum acc =>
      if is_digit c then LOk (LNum (snoc acc c)) []
      else if is_ident_start c || Nat.eqb (code c) 46 then LUnsup
      else emit_then [TNum acc] (normal_step c)
  | LEq =>
      if Nat.eqb (code c) 62 then LOk LNormal [TArrow]
      else emit_then [TPunct "="%char] (normal_step c)
  | LEqNL =>
      (* no line terminator may come before => *)
      if Nat.eqb (code c) 62 then LSyntax
      else emit_then [TPunct "="%char] (normal_step c)
  | LStr q acc =>
      if Ascii.eqb c q then LOk LNormal [TStr acc]
      else if Nat.eqb (code c) 92 then LOk (LEsc q acc) []
      else if is_line_terminator c then LSyntax
      else LOk (LStr q (snoc acc c)) []
  | LEsc q acc => escape_step q acc c
  | LZero q acc =>
      if is_digit c then LUnsup
      else
        let acc' := snoc acc (chr 0) in
        if Ascii.eqb c q then LOk LNormal [TStr acc']
        else if Nat.eqb (code c) 92 then LOk (LEsc q acc') []
        else if is_line_terminator c then LSyntax
        else LOk (LStr q (snoc acc' c)) []
  | LHex q acc count v =>
      if Nat.eqb (code c) 123 then LUnsup                          (* \u{...} *)
      else match hex_value c with
           | None => LSyntax
           | Some d =>
               let v' := v * 16 + d in
               if Nat.eqb count 1 then
                 if Nat.ltb v' 256 then LOk (LStr q (snoc acc (chr v'))) [] else LUnsup
               else LOk (LHex q acc (count - 1) v') []
           end
  end.

(** Characters consumed from a state, the tokens so far kept in order. *)
Fixpoint run_chars (st : lstate) (s : string) (acc : list token) : lres :=
  match s with
  | EmptyString => LOk st acc
  | String c s' =>
      match step st c with
      | LOk st' ts => run_chars st' s' (acc ++ ts)
      | e => e
      end
  end.

(** The end of the text. *)
Definition finish (st : lstate) : option (list token) :=
  match st with
  | LNormal | LNL => Some []
  | LIdent acc => Some [TIdent acc]
  | LNum acc => Some [TNum acc]
  | LEq | LEqNL => Some [TPunct "="%char]
  | _ => None
  end.

Inductive lex_result :=
  | LexOk (toks : list token)
  | LexSyntax
  | LexUnsup.

Definition lex (s : string) : lex_result :=
  match run_chars LNormal s [] with
  | LOk st ts => match finish st with Some ts' => LexOk (ts ++ ts') | None => LexSyntax end
  | LSyntax => LexSyntax
  | LUnsup => LexUnsup
  end.

(** *** Token trees *)

(** The open groups (innermost first: the bracket and the trees before it)
    and the trees of the current level. *)
Definition bstate : Type := list (bracket * list tree) * list tree.

Definition open_bracket (t : token) : option bracket :=
  match t with
  | TPunct c =>
      if Nat.eqb (code c) 40 then Some Paren
      else if Nat.eqb (code c) 91 then Some Square
      else if Nat.eqb (code c) 123 then Some Curly else None
  | _ => None
  end.

Definition close_bracket (t : token) : option bracket :=
  match t with
  | TPunct c =>
      if Nat.eqb (code c) 41 then Some Paren
      else if Nat.eqb (code c) 93 then Some Square
      else if Nat.eqb (code c) 125 then Some Curly else None
  | _ => None
  end.

Definition bracket_eqb (a b : bracket) : bool :=
  match a, b with
  | Paren, Paren | Square, Square | Curly, Curly => true
  | _, _ => false
  end.

(** One token; [None] on a closing bracket that matches no open one. *)
Definition tree_step (t : token) (st : bstate) : option bstate :=
  let (stk, cur) := st in
  match open_bracket t with
  | Some b => Some ((b, cur) :: stk, [])
  | None =>
      match close_bracket t with
      | Some b =>
          match stk with
          | (b', outer) :: stk' =>
              if bracket_eqb b b' then Some (stk', outer ++ [TGroup b cur]) else None
          | [] => None
          end
      | None => Some (stk, cur ++ [TTok t])
      end
  end.

Fixpoint tree_run (ts : list token) (st : bstate) : option bstate :=
  match ts with
  | [] => Some st
  | t :: ts' => match tree_step t st with Some st' => tree_run ts' st' | None => None end
  end.

(** The trees of a token list, every bracket matched. *)
Definition trees (ts : list token) : option (list tree) :=
  match tree_run ts ([], []) with
  | Some ([], cur) => Some cur
  | _ => None
  end.

(** *** Parser *)

Inductive expr :=
  | EStr (s : string)
  | ENum (digits : string)
  | ENeg (e : expr)
  | EBool (b : bool)
  | ENull
  | EThis
  | EIdent (x : string)
  | EArr (es : list expr)
  | EObj (ps : list prop)
  | EFun (params body : list tree)        (* checked by fun_check, kept as trees *)
  | EMember (e : expr) (x : string)
  | ECall (f : expr) (args : list expr)
with prop :=
  | PInit (key : string) (e : expr)
  | PShort (x : string).

Inductive stmt :=
  | SConst (x : string) (e : expr)
  | SExpr (e : expr)
  | SBlock (ss : list stmt).

Inductive presult (A : Type) :=
  | POk (a : A)
  | PSyntax
  | PUnsup.
Arguments POk {A} a.
Arguments PSyntax {A}.
Arguments PUnsup {A}.

Definition pbind {A B} (m : presult A) (k : A -> presult B) : presult B :=
  match m with POk a => k a | PSyntax => PSyntax | PUnsup => PUnsup end.

Notation "'let?' x ':=' m 'in' k" := (pbind m (fun x => k))
  (at level 200, x name, m at level 100, k at level 200).

Definition reserved : list string :=
  ["break"; "case"; "catch"; "class"; "const"; "continue"; "debugger"; "default";
   "delete"; "do"; "else"; "enum"; "export"; "extends"; "false"; "finally"; "for";
   "function"; "if"; "import"; "in"; "instanceof"; "new"; "null"; "return";
   "super"; "switch"; "this"; "throw"; "true"; "try"; "typeof"; "var"; "void";
   "while"; "with"; "yield"; "let"; "static"; "await"; "implements"; "interface";
   "package"; "private"; "protected"; "public"; "async"].

Definition is_reserved (x : string) : bool := existsb (String.eqb x) reserved.

Definition is_punct_tree (c : nat) (t : tree) : bool :=
  match t with TTok (TPunct c') => Nat.eqb (code c') c | _ => false end.

(** The pieces of a tree list between the top-level separators [c]. *)
Fixpoint split_on (c : nat) (ts : list tree) : list (list tree) :=
  match ts with
  | [] => [[]]
  | t :: ts' =>
      if is_punct_tree c t then [] :: split_on c ts'
      else match split_on c ts' with
           | p :: ps => (t :: p) :: ps
           | [] => [[t]]
           end
  end.

(** The comma-separated pieces of a bracket's contents; a trailing comma is
    dropped. *)
Definition comma_pieces (ts : list tree) : list (list tree) :=
  match ts with
  | [] => []
  | _ =>
      let ps := split_on 44 ts in
      match rev ps with
      | [] :: (_ :: _) as before => rev before
      | _ => ps
      end
  end.

Fixpoint all_ok {A} (rs : list (presult A)) : presult (list A) :=
  match rs with
  | [] => POk []
  | r :: rs' => let? a := r in let? l := all_ok rs' in POk (a :: l)
  end.

(** A function or arrow function expression, split into its parameters
    and its body ([fun_check] below reads both). *)
Definition fun_expr (ts : list tree) : option (list tree * list tree) :=
  match ts with
  | [TTok (TIdent "function"); TGroup Paren ps; TGroup Curly body] => Some (ps, body)
  | [TTok (TIdent "function"); TTok (TIdent f); TGroup Paren ps; TGroup Curly body] =>
      if is_reserved f then None else Some (ps, body)
  | TGroup Paren ps :: TTok TArrow :: body =>
      match body with
      | [TGroup Curly b] => Some (ps, b)
      | TGroup Curly _ :: _ :: _ => None
      | [] => None
      | _ => Some (ps, body)
      end
  | TTok (TIdent x) :: TTok TArrow :: body =>
      if is_reserved x then None else
      match body with
      | [TGroup Curly b] => Some ([TTok (TIdent x)], b)
      | TGroup Curly _ :: _ :: _ => None
      | [] => None
      | _ => Some ([TTok (TIdent x)], body)
      end
  | _ => None
  end.

Fixpoint proto_inits (ps : list prop) : nat :=
  match ps with
  | [] => 0
  | PInit k _ :: ps' => if String.eqb k "__proto__" then S (proto_inits ps') else proto_inits ps'
  | PShort _ :: ps' => proto_inits ps'
  end.

Fixpoint const_names (ss : list stmt) : list string :=
  match ss with
  | [] => []
  | SConst x _ :: ss' => x :: const_names ss'
  | _ :: ss' => const_names ss'
  end.

Fixpoint has_dup (xs : list string) : bool :=
  match xs with
  | [] => false
  | x :: xs' => existsb (String.eqb x) xs' || has_dup xs'
  end.

(** The parser is written as one step of each of its two functions
    (expressions and statement lists), given the functions for the nested
    levels; [parse_expr] and [parse_block] below tie the knot, the fuel
    bounding the nesting. [strict] is set inside brackets, where no
    semicolon can be inserted: there a brace group directly after a
    complete expression is a syntax error. *)

(** The comma-separated elements of an array literal or of call
    arguments. *)
Definition elems_with (pe : bool -> list tree -> presult expr) (inner : list tree) : presult (list expr) :=
  all_ok (map (fun p => match p with
                        | [] => PUnsup
                        | _ => pe true p
                        end) (comma_pieces inner)).

(** One property of an object literal. *)
Definition prop_with (pe : bool -> list tree -> presult expr) (p : list tree) : presult prop :=
  match p with
  | [TTok (TIdent x)] => if is_reserved x then PUnsup else POk (PShort x)
  | TTok (TIdent k) :: TTok (TPunct c) :: e =>
      if Nat.eqb (code c) 58 then let? v := pe true e in POk (PInit k v)
      else PUnsup
  | TTok (TStr k) :: TTok (TPunct c) :: e =>
      if Nat.eqb (code c) 58 then let? v := pe true e in POk (PInit k v)
      else PUnsup
  | _ => PUnsup
  end.

(** The properties of an object literal; two [__proto__:] properties are an
    early error. *)
Definition props_with (pe : bool -> list tree -> presult expr) (inner : list tree) : presult (list prop) :=
  let? ps := all_ok (map (prop_with pe) (comma_pieces inner)) in
  if Nat.ltb 1 (proto_inits ps) then PSyntax else POk ps.

Definition primary_with (pe : bool -> list tree -> presult expr) (t : tree) : presult expr :=
  match t with
  | TTok (TStr s) => POk (EStr s)
  | TTok (TNum d) => POk (ENum d)
  | TTok (TIdent x) =>
      if String.eqb x "true" then POk (EBool true)
      else if String.eqb x "false" then POk (EBool false)
      else if String.eqb x "null" then POk ENull
      else if String.eqb x "this" then POk EThis
      else if is_reserved x then PUnsup
      else POk (EIdent x)
  | TTok _ => PUnsup
  | TGroup Paren inner =>
      match split_on 44 inner with
      | [p] => match p with [] => PUnsup | _ => pe true p end
      | _ => PUnsup
      end
  | TGroup Square inner => let? es := elems_with pe inner in POk (EArr es)
  | TGroup Curly inner => let? ps := props_with pe inner in POk (EObj ps)
  end.

(** Member accesses and calls after a primary expression. *)
Fixpoint postfix_with (pe : bool -> list tree -> presult expr) (strict : bool) (e : expr)
    (rest : list tree) : presult expr :=
  match rest with
  | [] => POk e
  | TTok (TPunct c) :: TTok (TIdent x) :: rest' =>
      if Nat.eqb (code c) 46 then postfix_with pe strict (EMember e x) rest' else PUnsup
  | TGroup Paren args :: rest' => let? a := elems_with pe args in postfix_with pe strict (ECall e a) rest'
  | TGroup Curly _ :: _ => if strict then PSyntax else PUnsup
  | _ => PUnsup
  end.

(** [eval] and [arguments], which cannot be bound in strict code. *)
Definition is_restricted (x : string) : bool :=
  String.eqb x "eval" || String.eqb x "arguments".

(** The names of a parameter list of plain identifiers; default values,
    patterns, rest parameters, a trailing comma and the names [eval] and
    [arguments] are not modelled. *)
Definition param_name (p : list tree) : option string :=
  match p with
  | [TTok (TIdent x)] => if is_reserved x || is_restricted x then None else Some x
  | _ => None
  end.

Fixpoint all_some {A : Type} (l : list (option A)) : option (list A) :=
  match l with
  | [] => Some []
  | Some a :: l' => match all_some l' with Some r => Some (a :: r) | None => None end
  | None :: _ => None
  end.

Definition param_names (ps : list tree) : option (list string) :=
  match ps with
  | [] => Some []
  | _ => all_some (map param_name (split_on 44 ps))
  end.

(** A function whose body is a brace group: a [function] expression or an
    arrow function with a block body. *)
Definition fun_braced (ts : list tree) : bool :=
  match ts with
  | TTok (TIdent "function") :: _ => true
  | _ :: TTok TArrow :: [TGroup Curly _] => true
  | _ => false
  end.

(** A function expression [ts] with parameters [ps] and body [body], as
    [fun_expr] splits it: the parameters must be distinct identifiers (a
    repeated one, allowed in some functions, is not modelled), the body a
    statement list (a block body) or an expression (a concise arrow body).
    A block body whose [const] declarations repeat a parameter is an early
    error; a body that opens with a string literal statement (a directive
    prologue such as [use strict]) is not modelled. *)
Definition fun_check (pe : bool -> list tree -> presult expr) (pb : list tree -> presult (list stmt))
    (strict : bool) (ts ps body : list tree) : presult expr :=
  match param_names ps with
  | None => PUnsup
  | Some xs =>
      if has_dup xs then PUnsup
      else if fun_braced ts then
        let? ss := pb body in
        match ss with
        | SExpr (EStr _) :: _ => PUnsup
        | _ =>
            if existsb (fun x => existsb (String.eqb x) xs) (const_names ss) then PSyntax
            else POk (EFun ps body)
        end
      else let? _ := pe strict body in POk (EFun ps body)
  end.

(** An expression made of the trees [ts]. *)
Definition expr_step (pe : bool -> list tree -> presult expr) (pb : list tree -> presult (list stmt))
    (strict : bool) (ts : list tree) : presult expr :=
  match fun_expr ts with
  | Some (ps, body) => fun_check pe pb strict ts ps body
  | None =>
      match ts with
      | [] => PSyntax
      | TTok (TPunct c) :: rest =>
          if Nat.eqb (code c) 45 then
            match rest with
            | [] => PSyntax
            | _ => let? e := pe strict rest in POk (ENeg e)
            end
          else let? e := primary_with pe (TTok (TPunct c)) in postfix_with pe strict e rest
      | t :: rest => let? e := primary_with pe t in postfix_with pe strict e rest
      end
  end.

(** One piece of a statement list, between two semicolons: a block
    statement needs no semicolon after it. *)
Fixpoint piece_with (pe : bool -> list tree -> presult expr) (pb : list tree -> presult (list stmt))
    (p : list tree) : presult (list stmt) :=
  match p with
  | [] => POk []
  | TGroup Curly inner :: rest =>
      let? b := pb inner in
      let? r := piece_with pe pb rest in
      POk (SBlock b :: r)
  | TTok (TIdent "const") :: TTok (TIdent x) :: TTok (TPunct c) :: e =>
      if Nat.eqb (code c) 61 && negb (is_reserved x) && negb (is_restricted x) then
        let? v := pe false e in POk [SConst x v]
      else PUnsup
  | TTok (TIdent kw) :: _ =>
      if is_reserved kw && negb (existsb (String.eqb kw) ["this"; "true"; "false"; "null"])
      then PUnsup
      else let? v := pe false p in POk [SExpr v]
  | _ => let? v := pe false p in POk [SExpr v]
  end.

(** The statements of a block (or of the handler body); the last statement
    of a block needs no semicolon before its end. Two [const] declarations
    of one name in one block are an early error. *)
Definition block_step (pe : bool -> list tree -> presult expr) (pb : list tree -> presult (list stmt))
    (ts : list tree) : presult (list stmt) :=
  let? sss := all_ok (map (piece_with pe pb) (split_on 59 ts)) in
  let ss := concat sss in
  if has_dup (const_names ss) then PSyntax else POk ss.

Fixpoint parse_expr (n : nat) (strict : bool) (ts : list tree) {struct n} : presult expr :=
  match n with
  | O => PUnsup
  | S n' => expr_step (parse_expr n') (parse_block n') strict ts
  end
with parse_block (n : nat) (ts : list tree) {struct n} : presult (list stmt) :=
  match n with
  | O => PUnsup
  | S n' => block_step (parse_expr n') (parse_block n') ts
  end.

(** *** Evaluation *)

(** A call of a host function: the path by which it was reached
    ([window.dispatcher.toReplay.push]) and the arguments. *)
Record hcall := mkHCall { h_fn : list string; h_args : list jsv }.

Inductive bres (A : Type) :=
  | BOk (a : A) (tr : list hcall)
  | BThrow (e : string) (tr : list hcall)
  | BUnsup.
Arguments BOk {A} a tr.
Arguments BThrow {A} e tr.
Arguments BUnsup {A}.

Definition BM (A : Type) := list hcall -> bres A.
Definition bret {A} (a : A) : BM A := fun tr => BOk a tr.
Definition bthrow {A} (e : string) : BM A := fun tr => BThrow e tr.
Definition bunsup {A} : BM A := fun _ => BUnsup.
Definition bbind {A B} (m : BM A) (k : A -> BM B) : BM B :=
  fun tr => match m tr with
            | BOk a tr' => k a tr'
            | BThrow e tr' => BThrow e tr'
            | BUnsup => BUnsup
            end.

Notation "'let!' x ':=' m 'in' k" := (bbind m (fun x => k))
  (at level 200, x name, m at level 100, k at level 200).

(** Scopes, innermost first; [None] marks a [const] not yet initialised. *)
Definition env := list (list (string * option jsv)).

Fixpoint env_lookup (e : env) (x : string) : option (option jsv) :=
  match e with
  | [] => None
  | sc :: e' => match assoc x sc with Some r => Some r | None => env_lookup e' x end
  end.

Fixpoint set_binding (sc : list (string * option jsv)) (x : string) (v : jsv) :=
  match sc with
  | [] => []
  | (y, o) :: sc' => if String.eqb x y then (y, Some v) :: sc' else (y, o) :: set_binding sc' x v
  end.

Definition env_init (e : env) (x : string) (v : jsv) : env :=
  match e with
  | [] => []
  | sc :: e' => set_binding sc x v :: e'
  end.

Definition digit_value (c : ascii) : Z := Z.of_nat (code c - 48).

Fixpoint digits_value_acc (s : string) (acc : Z) : Z :=
  match s with
  | EmptyString => acc
  | String c s' => digits_value_acc s' (acc * 10 + digit_value c)
  end.

Definition digits_value (s : string) : Z := digits_value_acc s 0.

(** Names [Object.prototype] holds; reading one of them on an ordinary
    object is not modelled. *)
Definition object_prototype_names : list string :=
  ["constructor"; "toString"; "toLocaleString"; "valueOf"; "hasOwnProperty";
   "isPrototypeOf"; "propertyIsEnumerable"; "__proto__"; "__defineGetter__";
   "__defineSetter__"; "__lookupGetter__"; "__lookupSetter__"].

Inductive mres := MVal (v : jsv) | MUnsup.

Fixpoint obj_get (v : jsv) (x : string) : mres :=
  match v with
  | JObj pr ps =>
      match assoc x ps with
      | Some r => MVal r
      | None =>
          match pr with
          | PObject => if existsb (String.eqb x) object_prototype_names then MUnsup else MVal JUndef
          | PNull => MVal JUndef
          | PVal p => obj_get p x
          end
      end
  | _ => MUnsup
  end.

Definition get_member (v : jsv) (x : string) : BM jsv :=
  match v with
  | JHost p => bret (JHost (p ++ [x]))
  | JObj _ _ => match obj_get v x with MVal r => bret r | MUnsup => bunsup end
  | JUndef | JNull => bthrow "TypeError"
  | _ => bunsup
  end.

Definition call_value (f : jsv) (args : list jsv) : BM jsv :=
  match f with
  | JHost p => fun tr => BOk (JHost (p ++ ["()"])) (tr ++ [mkHCall p args])
  | JClo _ _ | JFun _ _ _ => bunsup
  | _ => bthrow "TypeError"
  end.

Fixpoint define_own (ps : list (string * jsv)) (k : string) (v : jsv) : list (string * jsv) :=
  match ps with
  | [] => [(k, v)]
  | (k', v') :: ps' => if String.eqb k k' then (k', v) :: ps' else (k', v') :: define_own ps' k v
  end.

Definition is_object (v : jsv) : bool :=
  match v with JArr _ | JObj _ _ | JFun _ _ _ | JClo _ _ | JHost _ => true | _ => false end.

(** A property of an object literal: [__proto__: v] sets the prototype when
    [v] is an object or [null] and creates no property. *)
Definition add_prop (o : jproto * list (string * jsv)) (k : string) (v : jsv) (init : bool) :=
  let (pr, ps) := o in
  if init && String.eqb k "__proto__" then
    match v with
    | JNull => (PNull, ps)
    | _ => if is_object v then (PVal v, ps) else (pr, ps)
    end
  else (pr, define_own ps k v).

Definition eval_ident (en : env) (x : string) : BM jsv :=
  match env_lookup en x with
  | Some (Some v) => bret v
  | Some None => bthrow "ReferenceError"
  | None => if String.eqb x "undefined" then bret JUndef else bret (JHost [x])
  end.

Fixpoint eval_expr (en : env) (e : expr) : BM jsv :=
  match e with
  | EStr s => bret (JStr s)
  (* a literal with a leading zero (legacy octal), one beyond 2^53 and -0
     are not modelled *)
  | ENum d =>
      let z := digits_value d in
      if String.eqb (z_to_decimal z) d && num_safe z then bret (JNum z) else bunsup
  | ENeg e1 =>
      let! v := eval_expr en e1 in
      match v with JNum z => if Z.eqb z 0 then bunsup else bret (JNum (- z)) | _ => bunsup end
  | EBool b => bret (JBool b)
  | ENull => bret JNull
  | EThis => bret (JHost ["this"])
  | EIdent x => eval_ident en x
  | EArr es =>
      let fix go (es : list expr) : BM (list jsv) :=
        match es with
        | [] => bret []
        | e1 :: es' => let! v := eval_expr en e1 in let! vs := go es' in bret (v :: vs)
        end in
      let! vs := go es in bret (JArr vs)
  | EObj ps =>
      let fix go (o : jproto * list (string * jsv)) (ps : list prop) : BM (jproto * list (string * jsv)) :=
        match ps with
        | [] => bret o
        | PInit k e1 :: ps' => let! v := eval_expr en e1 in go (add_prop o k v true) ps'
        | PShort x :: ps' => let! v := eval_ident en x in go (add_prop o x v false) ps'
        end in
      let! o := go (PObject, []) ps in bret (JObj (fst o) (snd o))
  | EFun ps body => bret (JClo ps body)
  | EMember e1 x => let! v := eval_expr en e1 in get_member v x
  | ECall f args =>
      let fix go (es : list expr) : BM (list jsv) :=
        match es with
        | [] => bret []
        | e1 :: es' => let! v := eval_expr en e1 in let! vs := go es' in bret (v :: vs)
        end in
      let! fv := eval_expr en f in
      let! vs := go args in
      call_value fv vs
  end.

Fixpoint eval_stmt (en : env) (s : stmt) {struct s} : BM env :=
  match s with
  | SConst x e => let! v := eval_expr en e in bret (env_init en x v)
  | SExpr e => let! _ := eval_expr en e in bret en
  | SBlock b =>
      let fix go (en : env) (ss : list stmt) : BM env :=
        match ss with
        | [] => bret en
        | s1 :: ss' => let! en' := eval_stmt en s1 in go en' ss'
        end in
      let! _ := go (map (fun x => (x, None)) (const_names b) :: en) b in
      bret en
  end.

Fixpoint eval_stmts (en : env) (ss : list stmt) : BM env :=
  match ss with
  | [] => bret en
  | s1 :: ss' => let! en' := eval_stmt en s1 in eval_stmts en' ss'
  end.

(** *** Running the handler text *)

Inductive outcome :=
  | ORan (tr : list hcall)                  (* ran to completion *)
  | OThrew (e : string) (tr : list hcall)  (* threw after these calls *)
  | OSyntaxError                            (* rejected: nothing runs *)
  | OUnsupported.

(** The body runs in the scope of the handler's [event] parameter, its own
    [const] declarations hoisted. *)
Definition run_handler (text : string) : outcome :=
  match lex text with
  | LexSyntax => OSyntaxError
  | LexUnsup => OUnsupported
  | LexOk toks =>
      match trees toks with
      | None => OSyntaxError
      | Some ts =>
          match parse_block (S (length toks)) ts with
          | PSyntax => OSyntaxError
          | PUnsup => OUnsupported
          | POk ss =>
              let en := [map (fun x => (x, None)) (const_names ss);
                         [("event", Some (JHost ["event"]))]] in
              match eval_stmts en ss [] with
              | BOk _ tr => ORan tr
              | BThrow e tr => OThrew e tr
              | BUnsup => OUnsupported
              end
          end
      end
  end.

(** The Replay Entry the generated text pushes. *)
Definition replay_entry (name : string) (handler args : jsv) : jsv :=
  JObj PObject [("name", JStr name); ("handler", handler); ("args", args);
                ("target", JHost ["this"]); ("event", JHost ["event"])].

Definition queue_push : list string := ["window"; "dispatcher"; "toReplay"; "push"].

End Browser.

(** ** Plain JSON values

    The arguments the claims about [ssrDispatch] speak of: values built from
    [null], booleans, integers, strings, arrays and ordinary objects, with no
    functions and no [toJSON] methods. [to_jsv] gives the JavaScript value;
    the other functions give, for each, the text [JSON.stringify] produces,
    the token trees of that text and the expression it parses to. *)
Module Json.
Import JS Server Browser.
Local Open Scope list_scope.
Local Open Scope string_scope.

Inductive json :=
  | JsNull
  | JsBool (b : bool)
  | JsNum (z : Z)
  | JsStr (s : string)
  | JsArr (l : list json)
  | JsObj (ps : list (string * json)).

Fixpoint to_jsv (v : json) : jsv :=
  match v with
  | JsNull => JNull
  | JsBool b => JBool b
  | JsNum z => JNum z
  | JsStr s => JStr s
  | JsArr l => JArr (map to_jsv l)
  | JsObj ps => JObj PObject (map (fun kv => (fst kv, to_jsv (snd kv))) ps)
  end.

Fixpoint jdepth (v : json) : nat :=
  match v with
  | JsArr l => S (list_max (map jdepth l))
  | JsObj ps => S (list_max (map (fun kv => jdepth (snd kv)) ps))
  | _ => 1
  end.

(** Every number is modelled. *)
Fixpoint jnums (v : json) : bool :=
  match v with
  | JsNum z => num_safe z
  | JsArr l => forallb jnums l
  | JsObj ps => forallb (fun kv => jnums (snd kv)) ps
  | _ => true
  end.

(** Object keys are distinct and none is [__proto__]; every number is
    modelled. *)
Fixpoint jgood (v : json) : bool :=
  match v with
  | JsNum z => num_safe z
  | JsArr l => forallb jgood l
  | JsObj ps =>
      negb (has_dup (map fst ps)) &&
      forallb (fun kv => negb (String.eqb (fst kv) "__proto__") && jgood (snd kv)) ps
  | _ => true
  end.

Fixpoint json_text (v : json) : string :=
  match v with
  | JsNull => "null"
  | JsBool b => if b then "true" else "false"
  | JsNum z => z_to_decimal z
  | JsStr s => quote_json_string s
  | JsArr l => "[" ++ join "," (map json_text l) ++ "]"
  | JsObj ps =>
      "{" ++ join "," (map (fun kv => quote_json_string (fst kv) ++ ":" ++ json_text (snd kv)) ps) ++ "}"
  end.

Definition comma : tree := TTok (TPunct ","%char).

Fixpoint join_trees (ps : list (list tree)) : list tree :=
  match ps with
  | [] => []
  | [p] => p
  | p :: ps' => (p ++ comma :: join_trees ps')%list
  end.

Definition num_trees (z : Z) : list tree :=
  match z with
  | Zneg p => [TTok (TPunct "-"%char); TTok (TNum (n_to_decimal (Npos p)))]
  | _ => [TTok (TNum (z_to_decimal z))]
  end.

Fixpoint jtrees (v : json) : list tree :=
  match v with
  | JsNull => [TTok (TIdent "null")]
  | JsBool b => [TTok (TIdent (if b then "true" else "false"))]
  | JsNum z => num_trees z
  | JsStr s => [TTok (TStr s)]
  | JsArr l => [TGroup Square (join_trees (map jtrees l))]
  | JsObj ps =>
      [TGroup Curly (join_trees (map (fun kv => TTok (TStr (fst kv)) :: TTok (TPunct ":"%char) :: jtrees (snd kv)) ps))]
  end.

Definition open_tok (b : bracket) : token :=
  match b with Paren => TPunct "("%char | Square => TPunct "["%char | Curly => TPunct "{"%char end.
Definition close_tok (b : bracket) : token :=
  match b with Paren => TPunct ")"%char | Square => TPunct "]"%char | Curly => TPunct "}"%char end.

Fixpoint flat (t : tree) : list token :=
  match t with
  | TTok k => [k]
  | TGroup b ts => (open_tok b :: concat (map flat ts) ++ [close_tok b])%list
  end.

Definition flatten (ts : list tree) : list token := concat (map flat ts).

Definition num_expr (z : Z) : expr :=
  match z with
  | Zneg p => ENeg (ENum (n_to_decimal (Npos p)))
  | _ => ENum (z_to_decimal z)
  end.

Fixpoint jexpr (v : json) : expr :=
  match v with
  | JsNull => ENull
  | JsBool b => EBool b
  | JsNum z => num_expr z
  | JsStr s => EStr s
  | JsArr l => EArr (map jexpr l)
  | JsObj ps => EObj (map (fun kv => PInit (fst kv) (jexpr (snd kv))) ps)
  end.

(** A name the generated text quotes as [' ... '] unchanged: no quote, no
    backslash, no line terminator. *)
Definition safe_char (c : ascii) : bool :=
  negb (Nat.eqb (code c) 39 || Nat.eqb (code c) 92 || is_line_terminator c).

Fixpoint safe_name (s : string) : bool :=
  match s with
  | EmptyString => true
  | String c s' => safe_char c && safe_name s'
  end.

(** A handler source the browser's parser reads, between parentheses, as
    one function or arrow function expression (its parameters and body
    checked as [fun_check] does): its parameters and body. *)
Definition handler_closure (src : string) : option (list tree * list tree) :=
  match lex src with
  | LexOk toks =>
      match trees toks with
      | Some hts =>
          match split_on 44 hts with
          | [_] =>
              match parse_expr (S (length toks)) true hts with
              | POk (EFun ps body) => Some (ps, body)
              | _ => None
              end
          | _ => None
          end
      | None => None
      end
  | _ => None
  end.

End Json.

(** ** The generated text, read by the browser *)

Module DispatchFacts.
Import JS Server Browser Json.
Local Open Scope list_scope.

Section JsonInd.
Variable P : json -> Prop.
Hypothesis HNull : P JsNull.
Hypothesis HBool : forall b, P (JsBool b).
Hypothesis HNum : forall z, P (JsNum z).
Hypothesis HStr : forall s, P (JsStr s).
Hypothesis HArr : forall l, Forall P l -> P (JsArr l).
Hypothesis HObj : forall ps, Forall (fun kv => P (snd kv)) ps -> P (JsObj ps).

Fixpoint json_ind' (v : json) : P v :=
  match v with
  | JsNull => HNull
  | JsBool b => HBool b
  | JsNum z => HNum z
  | JsStr s => HStr s
  | JsArr l =>
      HArr l ((fix go (l : list json) : Forall P l :=
                 match l with
                 | [] => List.Forall_nil _
                 | x :: l' => @List.Forall_cons _ P x l' (json_ind' x) (go l')
                 end) l)
  | JsObj ps =>
      HObj ps ((fix go (ps : list (string * json)) : Forall (fun kv => P (snd kv)) ps :=
                  match ps with
                  | [] => List.Forall_nil _
                  | (k, x) :: ps' => @List.Forall_cons _ (fun kv => P (snd kv)) (k, x) ps' (json_ind' x) (go ps')
                  end) ps)
  end.
End JsonInd.

(** *** Strings *)

Lemma string_app_cons (x : ascii) (a b : string) :
  String.append (String x a) b = String x (String.append a b).
Proof. reflexivity. Qed.

Lemma string_app_nil_l (a : string) : String.append EmptyString a = a.
Proof. reflexivity. Qed.

Lemma string_app_assoc (a b c : string) :
  String.append (String.append a b) c = String.append a (String.append b c).
Proof. induction a as [|x a IH]; [reflexivity|]. rewrite !string_app_cons. now rewrite IH. Qed.

Lemma string_app_nil_r (a : string) : String.append a EmptyString = a.
Proof. induction a as [|x a IH]; [reflexivity|]. rewrite string_app_cons. now rewrite IH. Qed.

Lemma snoc_app (a : string) (c : ascii) (s : string) :
  String.append (snoc a c) s = String.append a (String c s).
Proof. unfold snoc. now rewrite string_app_assoc. Qed.

(** *** Lexer *)

Lemma run_chars_app (st : lstate) (s1 s2 : string) (acc : list token) :
  run_chars st (s1 ++ s2) acc =
  match run_chars st s1 acc with
  | LOk st' acc' => run_chars st' s2 acc'
  | LSyntax => LSyntax
  | LUnsup => LUnsup
  end.
Proof.
  revert st acc; induction s1 as [|c s1 IH]; intros st acc; simpl; [reflexivity|].
  destruct (step st c); [apply IH | reflexivity | reflexivity].
Qed.

Lemma run_chars_acc (st : lstate) (s : string) (acc : list token) :
  run_chars st s acc =
  match run_chars st s [] with
  | LOk st' ts => LOk st' (acc ++ ts)
  | e => e
  end.
Proof.
  revert st acc; induction s as [|c s IH]; intros st acc; simpl.
  - now rewrite app_nil_r.
  - destruct (step st c) as [st' ts| |]; [|reflexivity|reflexivity].
    rewrite (IH st' (acc ++ ts)), (IH st' ts).
    destruct (run_chars st' s []); try reflexivity. now rewrite app_assoc.
Qed.

Definition squote : ascii := "'"%char.
Definition dquote : ascii := ascii_of_nat 34.

Lemma safe_name_chars (s acc : string) :
  safe_name s = true -> run_chars (LStr squote acc) s [] = LOk (LStr squote (acc ++ s)) [].
Proof.
  revert acc; induction s as [|c s IH]; intros acc Hs; simpl in *.
  - now rewrite string_app_nil_r.
  - apply andb_prop in Hs as [Hc Hs]. unfold safe_char in Hc.
    apply negb_true_iff in Hc. apply orb_false_iff in Hc as [Hc Hlt].
    apply orb_false_iff in Hc as [Hq Hb].
    assert (Ascii.eqb c squote = false) as Hcq.
    { destruct (Ascii.eqb c squote) eqn:E; [|reflexivity].
      apply Ascii.eqb_eq in E. subst c. discriminate. }
    rewrite Hcq. unfold code in *. rewrite Hb, Hlt. simpl.
    rewrite IH by exact Hs. now rewrite snoc_app.
Qed.

Lemma json_escape_char (c : ascii) (acc : string) :
  run_chars (LStr dquote acc) (json_escape c) [] = LOk (LStr dquote (snoc acc c)) [].
Proof.
  destruct c as [[] [] [] [] [] [] [] []]; reflexivity.
Qed.

Lemma run_chars_app_ok (st st' : lstate) (s1 s2 : string) (ts acc : list token) :
  run_chars st s1 [] = LOk st' ts ->
  run_chars st (String.append s1 s2) acc = run_chars st' s2 (acc ++ ts).
Proof.
  intros H. rewrite run_chars_app, run_chars_acc, H. reflexivity.
Qed.

Lemma json_escape_all_chars (s acc : string) :
  run_chars (LStr dquote acc) (json_escape_all s) [] = LOk (LStr dquote (String.append acc s)) [].
Proof.
  revert acc; induction s as [|c s IH]; intros acc; simpl.
  - now rewrite string_app_nil_r.
  - rewrite (run_chars_app_ok _ _ _ _ _ _ (json_escape_char c acc)), IH. simpl.
    now rewrite snoc_app.
Qed.

(** Decimal digits. *)
Fixpoint all_digits (s : string) : bool :=
  match s with
  | EmptyString => true
  | String c s' => is_digit c && all_digits s'
  end.

Lemma digit_char_ok (d : N) :
  (d < 10)%N -> is_digit (digit_char d) = true /\ digit_value (digit_char d) = Z.of_N d.
Proof.
  intros Hd.
  assert (d = 0 \/ d = 1 \/ d = 2 \/ d = 3 \/ d = 4 \/ d = 5 \/ d = 6 \/ d = 7 \/ d = 8 \/ d = 9)%N
    as Hc by lia.
  repeat destruct Hc as [Hc|Hc]; subst d; split; reflexivity.
Qed.

Lemma n_digits_app (f : nat) (n : N) (acc : string) :
  n_digits f n acc = String.append (n_digits f n EmptyString) acc.
Proof.
  revert n acc; induction f as [|f IH]; intros n acc; simpl; [reflexivity|].
  destruct (n <? 10)%N; [reflexivity|].
  rewrite (IH _ (String _ acc)), (IH _ (String _ EmptyString)).
  now rewrite string_app_assoc.
Qed.

Lemma all_digits_app (a b : string) :
  all_digits (String.append a b) = all_digits a && all_digits b.
Proof.
  induction a as [|c a IH]; [reflexivity|]. rewrite string_app_cons. simpl.
  rewrite IH. now rewrite andb_assoc.
Qed.

Lemma n_digits_all (f : nat) (n : N) : all_digits (n_digits f n EmptyString) = true.
Proof.
  revert n; induction f as [|f IH]; intros n; cbn [n_digits all_digits].
  - rewrite (proj1 (digit_char_ok _ (N.mod_lt n 10 ltac:(lia)))). reflexivity.
  - destruct (n <? 10)%N eqn:E.
    + apply N.ltb_lt in E. cbn [all_digits]. rewrite (proj1 (digit_char_ok _ E)). reflexivity.
    + rewrite n_digits_app, all_digits_app, IH. cbn [all_digits].
      rewrite (proj1 (digit_char_ok _ (N.mod_lt n 10 ltac:(lia)))). reflexivity.
Qed.

Lemma digits_value_acc_app (a b : string) (z : Z) :
  digits_value_acc (String.append a b) z = digits_value_acc b (digits_value_acc a z).
Proof.
  revert z; induction a as [|c a IH]; intros z; [reflexivity|].
  rewrite string_app_cons. simpl. apply IH.
Qed.

Lemma n_digits_value (f : nat) (n : N) :
  (n < 10 ^ N.of_nat (S f))%N -> digits_value (n_digits f n EmptyString) = Z.of_N n.
Proof.
  revert n; induction f as [|f IH]; intros n Hn; unfold digits_value; cbn [n_digits digits_value_acc].
  - rewrite N.mod_small by (simpl in Hn; lia).
    rewrite (proj2 (digit_char_ok n ltac:(simpl in Hn; lia))). reflexivity.
  - destruct (n <? 10)%N eqn:E.
    + apply N.ltb_lt in E. cbn [digits_value_acc]. rewrite (proj2 (digit_char_ok n E)). reflexivity.
    + apply N.ltb_ge in E.
      rewrite n_digits_app, digits_value_acc_app. fold (digits_value (n_digits f (n / 10) EmptyString)).
      rewrite IH.
      * cbn [digits_value_acc]. rewrite (proj2 (digit_char_ok _ (N.mod_lt n 10 ltac:(lia)))).
        rewrite (N.div_mod n 10) at 3 by lia. lia.
      * apply N.Div0.div_lt_upper_bound.
        replace (N.of_nat (S (S f))) with (N.succ (N.of_nat (S f))) in Hn by lia.
        rewrite N.pow_succ_r' in Hn. exact Hn.
Qed.

Lemma size_nat_bound (p : positive) : (Npos p < 2 ^ N.of_nat (Pos.size_nat p))%N.
Proof.
  induction p as [p IH|p IH|]; simpl Pos.size_nat.
  - replace (N.of_nat (S (Pos.size_nat p))) with (N.succ (N.of_nat (Pos.size_nat p))) by lia.
    rewrite N.pow_succ_r'. lia.
  - replace (N.of_nat (S (Pos.size_nat p))) with (N.succ (N.of_nat (Pos.size_nat p))) by lia.
    rewrite N.pow_succ_r'. lia.
  - simpl. lia.
Qed.

Lemma pow2_le_pow10 (k : N) : (2 ^ k <= 10 ^ k)%N.
Proof. apply N.pow_le_mono_l. lia. Qed.

Lemma n_to_decimal_value (n : N) : digits_value (n_to_decimal n) = Z.of_N n.
Proof.
  unfold n_to_decimal. apply n_digits_value.
  destruct n as [|p]; [simpl; lia|].
  simpl N.size_nat. pose proof (size_nat_bound p). pose proof (pow2_le_pow10 (N.of_nat (Pos.size_nat p))).
  replace (N.of_nat (S (Pos.size_nat p))) with (N.succ (N.of_nat (Pos.size_nat p))) by lia.
  rewrite N.pow_succ_r'. lia.
Qed.

Lemma n_digits_nonempty (f : nat) (n : N) (acc : string) : n_digits f n acc <> EmptyString.
Proof.
  revert n acc; induction f as [|f IH]; intros n acc; cbn [n_digits]; [discriminate|].
  destruct (n <? 10)%N; [discriminate | apply IH].
Qed.

Lemma n_to_decimal_digits (n : N) :
  exists c s, n_to_decimal n = String c s /\ is_digit c = true /\ all_digits s = true.
Proof.
  pose proof (n_digits_all (N.size_nat n) n) as H. unfold n_to_decimal.
  destruct (n_digits (N.size_nat n) n EmptyString) as [|c s] eqn:E.
  - exfalso. exact (n_digits_nonempty _ _ _ E).
  - cbn [all_digits] in H. apply andb_prop in H as [H1 H2]. now exists c, s.
Qed.

Lemma num_chars (a s : string) :
  all_digits s = true -> run_chars (LNum a) s [] = LOk (LNum (String.append a s)) [].
Proof.
  revert a; induction s as [|c s IH]; intros a Hs; simpl in *.
  - now rewrite string_app_nil_r.
  - apply andb_prop in Hs as [Hc Hs]. rewrite Hc. simpl.
    rewrite IH by exact Hs. now rewrite snoc_app.
Qed.

Definition delim (d : ascii) : bool :=
  Nat.eqb (code d) 44 || Nat.eqb (code d) 93 || Nat.eqb (code d) 125 || Nat.eqb (code d) 59.

Lemma delim_cases (d : ascii) :
  delim d = true -> d = ","%char \/ d = "]"%char \/ d = "}"%char \/ d = ";"%char.
Proof.
  unfold delim, code. intros H.
  repeat (apply orb_prop in H as [H|H]); apply Nat.eqb_eq in H;
    rewrite <- (ascii_nat_embedding d), H; auto.
Qed.

Lemma delim_steps (d : ascii) : delim d = true ->
  normal_step d = LOk LNormal [TPunct d] /\
  (forall a, step (LIdent a) d = LOk LNormal [TIdent a; TPunct d]) /\
  (forall a, step (LNum a) d = LOk LNormal [TNum a; TPunct d]).
Proof.
  intros H. apply delim_cases in H. repeat destruct H as [H|H]; subst d; repeat split; reflexivity.
Qed.


Lemma digit_normal_step (c : ascii) :
  is_digit c = true -> normal_step c = LOk (LNum (String c EmptyString)) [].
Proof.
  unfold is_digit, code. intros H. apply andb_prop in H as [H1 H2].
  apply Nat.leb_le in H1, H2.
  rewrite <- (ascii_nat_embedding c).
  assert (nat_of_ascii c = 48 \/ nat_of_ascii c = 49 \/ nat_of_ascii c = 50 \/ nat_of_ascii c = 51 \/
          nat_of_ascii c = 52 \/ nat_of_ascii c = 53 \/ nat_of_ascii c = 54 \/ nat_of_ascii c = 55 \/
          nat_of_ascii c = 56 \/ nat_of_ascii c = 57) as Hc by lia.
  repeat destruct Hc as [Hc|Hc]; rewrite Hc; reflexivity.
Qed.

Lemma flatten_app (a b : list tree) : flatten (a ++ b) = flatten a ++ flatten b.
Proof. unfold flatten. now rewrite map_app, concat_app. Qed.

Lemma flatten_cons (t : tree) (b : list tree) : flatten (t :: b) = flat t ++ flatten b.
Proof. reflexivity. Qed.

Definition lexes_before (s : string) (ts : list tree) : Prop :=
  forall d rest acc, delim d = true ->
    run_chars LNormal (String.append s (String d rest)) acc =
    run_chars LNormal rest (acc ++ flatten ts ++ [TPunct d]).

Lemma lex_join {A : Type} (txt : A -> string) (trs : A -> list tree) (l : list A) :
  l <> [] -> Forall (fun x => lexes_before (txt x) (trs x)) l ->
  lexes_before (join ","%string (map txt l)) (join_trees (map trs l)).
Proof.
  intros Hne Hall. induction Hall as [|x l Hx Hl IH]; [contradiction|].
  destruct l as [|y l'].
  - exact Hx.
  - intros e rest acc He. cbn [map join join_trees].
    rewrite !string_app_assoc, string_app_cons, string_app_nil_l.
    rewrite (Hx ","%char) by reflexivity.
    replace (String.append (join ","%string (txt y :: map txt l')) (String e rest))
      with (String.append (join ","%string (map txt (y :: l'))) (String e rest)) by reflexivity.
    rewrite (IH ltac:(discriminate) e rest _ He).
    rewrite flatten_app, flatten_cons. simpl flat. now rewrite <- !app_assoc.
Qed.

Ltac delim_case H :=
  destruct (delim_cases _ H) as [->|[->|[->| ->]]].

Lemma lex_quoted_punct (s : string) (d : ascii) (rest : string) (acc : list token) :
  normal_step d = LOk LNormal [TPunct d] ->
  run_chars LNormal (String.append (quote_json_string s) (String d rest)) acc =
  run_chars LNormal rest (acc ++ flatten [TTok (TStr s)] ++ [TPunct d]).
Proof.
  intros Hd. unfold quote_json_string, dq.
  rewrite !string_app_assoc, string_app_cons, string_app_nil_l.
  change (run_chars LNormal (String dquote (String.append (json_escape_all s)
            (String.append (String dquote EmptyString) (String d rest)))) acc =
          run_chars LNormal rest (acc ++ flatten [TTok (TStr s)] ++ [TPunct d])).
  cbn [run_chars]. replace (step LNormal dquote) with (LOk (LStr dquote EmptyString) []) by reflexivity.
  rewrite (run_chars_app_ok _ _ _ _ _ _ (json_escape_all_chars s EmptyString)).
  rewrite string_app_cons, string_app_nil_l, string_app_nil_l. cbn [run_chars].
  replace (step (LStr dquote s) dquote) with (LOk LNormal [TStr s]) by reflexivity.
  cbn [run_chars]. unfold step at 1. rewrite Hd. simpl. now rewrite !app_nil_r, <- !app_assoc.
Qed.

Lemma lex_quoted (s : string) : lexes_before (quote_json_string s) [TTok (TStr s)].
Proof.
  intros d rest acc Hd. apply lex_quoted_punct. apply (delim_steps d Hd).
Qed.

Lemma lex_digits (s : string) : all_digits s = true -> s <> EmptyString ->
  lexes_before s [TTok (TNum s)].
Proof.
  intros Hs Hne d rest acc Hd. destruct s as [|c s]; [contradiction|].
  cbn [all_digits] in Hs. apply andb_prop in Hs as [Hc Hs].
  rewrite string_app_cons. cbn [run_chars]. unfold step at 1. rewrite (digit_normal_step c Hc).
  rewrite (run_chars_app_ok _ _ _ _ _ _ (num_chars _ _ Hs)).
  destruct (delim_steps d Hd) as [_ [_ Hn]]. cbn [run_chars]. rewrite Hn.
  simpl. now rewrite app_nil_r, <- !app_assoc.
Qed.

Lemma lex_json (v : json) : lexes_before (json_text v) (jtrees v).
Proof.
  induction v as [| b | z | s | l IH | ps IH] using json_ind'.
  - intros d rest acc Hd. delim_case Hd; simpl; now rewrite <- !app_assoc.
  - intros d rest acc Hd. destruct b; delim_case Hd; simpl; now rewrite <- !app_assoc.
  - destruct z as [|p|p].
    + intros d rest acc Hd. delim_case Hd; simpl; now rewrite <- !app_assoc.
    + destruct (n_to_decimal_digits (Npos p)) as [c [s [E [Hc Hs]]]].
      cbn [json_text jtrees num_trees z_to_decimal]. rewrite E. apply lex_digits; [|discriminate].
      cbn [all_digits]. now rewrite Hc, Hs.
    + destruct (n_to_decimal_digits (Npos p)) as [c [s [E [Hc Hs]]]].
      intros d rest acc Hd. cbn [json_text jtrees num_trees z_to_decimal].
      rewrite string_app_cons. cbn [run_chars].
      replace (step LNormal "-"%char) with (LOk LNormal [TPunct "-"%char]) by reflexivity.
      assert (Hd' : all_digits (String c s) = true) by (cbn [all_digits]; now rewrite Hc, Hs).
      rewrite E, (lex_digits (String c s) Hd' ltac:(discriminate) d rest _ Hd).
      simpl. now rewrite <- !app_assoc.
  - apply lex_quoted.
  - intros d rest acc Hd. cbn [json_text jtrees].
    rewrite !string_app_assoc, string_app_cons, string_app_nil_l. cbn [run_chars].
    replace (step LNormal "["%char) with (LOk LNormal [TPunct "["%char]) by reflexivity.
    destruct l as [|x l'].
    + simpl. delim_case Hd; simpl; now rewrite <- !app_assoc.
    + rewrite string_app_cons, string_app_nil_l.
      rewrite (lex_join json_text jtrees (x :: l') ltac:(discriminate) IH "]"%char) by reflexivity.
      cbn [run_chars]. destruct (delim_steps d Hd) as [Hn _]. unfold step at 1. rewrite Hn.
      simpl. now rewrite app_nil_r, <- !app_assoc.
  - intros d rest acc Hd. cbn [json_text jtrees].
    rewrite !string_app_assoc, string_app_cons, string_app_nil_l. cbn [run_chars].
    replace (step LNormal "{"%char) with (LOk LNormal [TPunct "{"%char]) by reflexivity.
    destruct ps as [|[k x] ps'].
    + simpl. delim_case Hd; simpl; now rewrite <- !app_assoc.
    + rewrite string_app_cons, string_app_nil_l.
      assert (Hm : Forall (fun kv => lexes_before (quote_json_string (fst kv) ++ ":" ++ json_text (snd kv))%string
                 (TTok (TStr (fst kv)) :: TTok (TPunct ":"%char) :: jtrees (snd kv))) ((k, x) :: ps')).
      2:{ rewrite (lex_join (fun kv => (quote_json_string (fst kv) ++ ":" ++ json_text (snd kv))%string)
                 (fun kv => TTok (TStr (fst kv)) :: TTok (TPunct ":"%char) :: jtrees (snd kv))
                 ((k, x) :: ps') ltac:(discriminate) Hm "}"%char) by reflexivity.
        cbn [run_chars]. destruct (delim_steps d Hd) as [Hn _]. unfold step at 1. rewrite Hn.
        simpl. now rewrite app_nil_r, <- !app_assoc. }
      eapply List.Forall_impl; [|exact IH]. intros [k' y] Hy d' rest' acc' Hd'. cbn [fst snd] in *.
        rewrite !string_app_assoc, string_app_cons, string_app_nil_l.
        rewrite (lex_quoted_punct k' ":"%char _ _ eq_refl).
        rewrite (Hy d' rest' _ Hd').
        simpl. now rewrite <- !app_assoc.
Qed.

(** *** Token trees *)

Definition balanced (toks : list token) (ts : list tree) : Prop :=
  forall stk cur, tree_run toks (stk, cur) = Some (stk, cur ++ ts).

Lemma tree_run_app (a b : list token) (st : bstate) :
  tree_run (a ++ b) st = match tree_run a st with Some st' => tree_run b st' | None => None end.
Proof.
  revert st; induction a as [|t a IH]; intros st; simpl; [reflexivity|].
  destruct (tree_step t st); [apply IH | reflexivity].
Qed.

Lemma bal_app (a b : list token) (ta tb : list tree) :
  balanced a ta -> balanced b tb -> balanced (a ++ b) (ta ++ tb).
Proof.
  intros Ha Hb stk cur. rewrite tree_run_app, Ha, Hb. now rewrite app_assoc.
Qed.

Lemma bal_tok (t : token) :
  open_bracket t = None -> close_bracket t = None -> balanced [t] [TTok t].
Proof. intros Ho Hc stk cur. simpl. unfold tree_step. now rewrite Ho, Hc. Qed.

Lemma bal_group (b : bracket) (a : list token) (ta : list tree) :
  balanced a ta -> balanced (open_tok b :: a ++ [close_tok b]) [TGroup b ta].
Proof.
  intros Ha stk cur. cbn [tree_run].
  replace (tree_step (open_tok b) (stk, cur)) with (Some ((b, cur) :: stk, @nil tree))
    by now destruct b.
  rewrite tree_run_app, Ha. simpl. destruct b; reflexivity.
Qed.

Lemma bal_flatten_app (a b : list tree) :
  balanced (flatten a) a -> balanced (flatten b) b -> balanced (flatten (a ++ b)) (a ++ b).
Proof. intros Ha Hb. rewrite flatten_app. now apply bal_app. Qed.

Lemma bal_flatten_tok (t : token) :
  open_bracket t = None -> close_bracket t = None -> balanced (flatten [TTok t]) [TTok t].
Proof. intros Ho Hc. apply bal_tok; assumption. Qed.

Lemma bal_flatten_group (b : bracket) (ts : list tree) :
  balanced (flatten ts) ts -> balanced (flatten [TGroup b ts]) [TGroup b ts].
Proof.
  intros H. unfold flatten at 1. simpl. rewrite app_nil_r. now apply bal_group.
Qed.

Lemma bal_join (ps : list (list tree)) :
  Forall (fun p => balanced (flatten p) p) ps -> balanced (flatten (join_trees ps)) (join_trees ps).
Proof.
  induction 1 as [|p ps Hp Hps IH].
  - intros stk cur. simpl. now rewrite app_nil_r.
  - destruct ps as [|q ps']; [exact Hp|].
    change (join_trees (p :: q :: ps')) with (p ++ [comma] ++ join_trees (q :: ps')).
    apply bal_flatten_app; [exact Hp|]. apply bal_flatten_app; [|exact IH].
    apply bal_flatten_tok; reflexivity.
Qed.

Lemma bal_json (v : json) : balanced (flatten (jtrees v)) (jtrees v).
Proof.
  induction v as [| b | z | s | l IH | ps IH] using json_ind'.
  - apply bal_flatten_tok; reflexivity.
  - apply bal_flatten_tok; destruct b; reflexivity.
  - destruct z; cbn [jtrees num_trees].
    + apply bal_flatten_tok; reflexivity.
    + apply bal_flatten_tok; reflexivity.
    + change [TTok (TPunct "-"%char); TTok (TNum (n_to_decimal (N.pos p)))]
        with ([TTok (TPunct "-"%char)] ++ [TTok (TNum (n_to_decimal (N.pos p)))]).
      apply bal_flatten_app; apply bal_flatten_tok; reflexivity.
  - apply bal_flatten_tok; reflexivity.
  - apply bal_flatten_group, bal_join. apply List.Forall_map. exact IH.
  - apply bal_flatten_group, bal_join. apply List.Forall_map.
    eapply List.Forall_impl; [|exact IH]. intros [k x] Hx.
    change (balanced (flatten (jtrees x)) (jtrees x)) in Hx.
    change (balanced (flatten ([TTok (TStr k)] ++ [TTok (TPunct ":"%char)] ++ jtrees x))
                     ([TTok (TStr k)] ++ [TTok (TPunct ":"%char)] ++ jtrees x)).
    apply bal_flatten_app; [apply bal_flatten_tok; reflexivity|].
    apply bal_flatten_app; [apply bal_flatten_tok; reflexivity|exact Hx].
Qed.

(** A token list whose trees are [ts] from the empty state gives them on top
    of any state. *)
Definition prefix_last (c0 : list tree) (stk : list (bracket * list tree)) :=
  match rev stk with
  | [] => []
  | (b, outer) :: r => rev r ++ [(b, c0 ++ outer)]
  end.

Definition rebase (stk0 : list (bracket * list tree)) (c0 : list tree) (st : bstate) : bstate :=
  match st with
  | ([], cur) => (stk0, c0 ++ cur)
  | (stk, cur) => (prefix_last c0 stk ++ stk0, cur)
  end.

Lemma prefix_last_step (c0 : list tree) (e : bracket * list tree) (stk : list (bracket * list tree)) :
  stk <> [] -> prefix_last c0 (e :: stk) = e :: prefix_last c0 stk.
Proof.
  intros Hne. unfold prefix_last. simpl.
  destruct (rev stk) as [|[b o] r] eqn:E.
  - apply (f_equal (@rev _)) in E. rewrite rev_involutive in E. contradiction.
  - simpl. now rewrite rev_app_distr.
Qed.

Lemma prefix_last_single (c0 : list tree) (b : bracket) (o : list tree) :
  prefix_last c0 [(b, o)] = [(b, c0 ++ o)].
Proof. reflexivity. Qed.

Lemma prefix_last_nil (c0 : list tree) (s : list (bracket * list tree)) :
  prefix_last c0 s = [] -> s = [].
Proof.
  unfold prefix_last. destruct (rev s) as [|[b o] r] eqn:E; intros H.
  - apply (f_equal (@rev _)) in E. now rewrite rev_involutive in E.
  - destruct (rev r); discriminate.
Qed.

Lemma tree_step_rebase (t : token) (st st' : bstate) stk0 c0 :
  tree_step t st = Some st' -> tree_step t (rebase stk0 c0 st) = Some (rebase stk0 c0 st').
Proof.
  destruct st as [stk cur]. unfold tree_step.
  destruct (open_bracket t) as [b|] eqn:Ho.
  - intros H. injection H as <-. destruct stk as [|e stk]; simpl; rewrite ?Ho.
    + reflexivity.
    + rewrite (prefix_last_step c0 (b, cur) (e :: stk)) by discriminate. reflexivity.
  - destruct (close_bracket t) as [b|] eqn:Hc.
    + destruct stk as [|[b' outer] stk]; [discriminate|].
      destruct (bracket_eqb b b') eqn:Eb; [|discriminate]. intros H. injection H as <-.
      destruct stk as [|e stk].
      * simpl. rewrite ?Ho, ?Hc, ?Eb. now rewrite app_assoc.
      * cbn [rebase]. rewrite prefix_last_step by discriminate. simpl.
        rewrite ?Ho, ?Hc, ?Eb. destruct (prefix_last c0 (e :: stk)) eqn:Ep.
        -- apply prefix_last_nil in Ep. discriminate.
        -- reflexivity.
    + intros H. injection H as <-. destruct stk as [|e stk]; simpl; rewrite ?Ho, ?Hc.
      * now rewrite app_assoc.
      * reflexivity.
Qed.

Lemma tree_run_rebase (toks : list token) (st st' : bstate) stk0 c0 :
  tree_run toks st = Some st' -> tree_run toks (rebase stk0 c0 st) = Some (rebase stk0 c0 st').
Proof.
  revert st; induction toks as [|t toks IH]; intros st H; simpl in *.
  - congruence.
  - destruct (tree_step t st) as [st1|] eqn:E; [|discriminate].
    rewrite (tree_step_rebase _ _ _ stk0 c0 E). now apply IH.
Qed.

Lemma trees_balanced (toks : list token) (ts : list tree) :
  trees toks = Some ts -> balanced toks ts.
Proof.
  unfold trees. destruct (tree_run toks ([], [])) as [[[|? ?] cur]|] eqn:E; try discriminate.
  intros H. injection H as <-. intros stk cur0.
  apply (tree_run_rebase _ _ _ stk cur0) in E. simpl in E. now rewrite app_nil_r in E.
Qed.


(** *** Parser *)

Definition nosep (c : nat) (p : list tree) : bool := forallb (fun t => negb (is_punct_tree c t)) p.

Lemma split_on_free (c : nat) (p : list tree) : nosep c p = true -> split_on c p = [p].
Proof.
  induction p as [|t p IH]; intros H; [reflexivity|].
  cbn [nosep forallb] in H. apply andb_prop in H as [Ht Hp]. apply negb_true_iff in Ht.
  simpl. rewrite Ht. fold (nosep c p) in Hp. now rewrite (IH Hp).
Qed.

Lemma split_on_sep (c : nat) (p : list tree) (t : tree) (rest : list tree) :
  nosep c p = true -> is_punct_tree c t = true ->
  split_on c (p ++ t :: rest) = p :: split_on c rest.
Proof.
  induction p as [|t' p IH]; intros H Ht; simpl.
  - now rewrite Ht.
  - cbn [nosep forallb] in H. apply andb_prop in H as [Ht' Hp]. apply negb_true_iff in Ht'.
    rewrite Ht'. fold (nosep c p) in Hp. now rewrite (IH Hp Ht).
Qed.

Lemma split_join (ps : list (list tree)) :
  ps <> [] -> Forall (fun p => nosep 44 p = true) ps -> split_on 44 (join_trees ps) = ps.
Proof.
  intros Hne H. induction H as [|p ps Hp Hps IH]; [contradiction|].
  destruct ps as [|q ps'].
  - now apply split_on_free.
  - change (join_trees (p :: q :: ps')) with (p ++ comma :: join_trees (q :: ps')).
    rewrite split_on_sep by (exact Hp || reflexivity). now rewrite IH by discriminate.
Qed.

Lemma comma_pieces_join (ps : list (list tree)) :
  Forall (fun p => p <> [] /\ nosep 44 p = true) ps -> comma_pieces (join_trees ps) = ps.
Proof.
  intros H. destruct ps as [|p ps']; [reflexivity|].
  assert (Hs : split_on 44 (join_trees (p :: ps')) = p :: ps').
  { apply split_join; [discriminate|]. eapply List.Forall_impl; [|exact H]. intros x [_ Hx]; exact Hx. }
  unfold comma_pieces.
  destruct (join_trees (p :: ps')) as [|t ts] eqn:Ej.
  - exfalso. inversion H as [|? ? [Hp _] _]; subst. destruct ps' as [|q ps''].
    + simpl in Ej. contradiction.
    + simpl in Ej. destruct p; [contradiction|discriminate].
  - rewrite Hs.
    destruct (rev (p :: ps')) as [|[|t' q] r] eqn:Er; try reflexivity.
    exfalso. assert (In [] (p :: ps')) as Hin by (apply in_rev; rewrite Er; left; reflexivity).
    rewrite List.Forall_forall in H. destruct (H [] Hin) as [Hc _]. now apply Hc.
Qed.

Lemma jtrees_shape (v : json) : jtrees v <> [] /\ nosep 44 (jtrees v) = true.
Proof.
  destruct v as [| b | z | s | l | ps]; cbn [jtrees]; try (split; [discriminate | reflexivity]).
  destruct z; split; try discriminate; reflexivity.
Qed.

Lemma all_ok_map {A B : Type} (f : A -> presult B) (g : A -> B) (l : list A) :
  Forall (fun x => f x = POk (g x)) l -> all_ok (map f l) = POk (map g l).
Proof. induction 1 as [|x l Hx Hl IH]; simpl; [reflexivity|]. now rewrite Hx, IH. Qed.

Lemma list_max_in (l : list nat) (x : nat) : In x l -> x <= list_max l.
Proof.
  intros H. pose proof (proj1 (list_max_le l (list_max l)) (le_n _)) as Hl.
  rewrite List.Forall_forall in Hl. now apply Hl.
Qed.

Lemma proto_inits_zero (ps : list (string * json)) :
  forallb (fun kv => negb (String.eqb (fst kv) "__proto__") && jgood (snd kv)) ps = true ->
  proto_inits (map (fun kv => PInit (fst kv) (jexpr (snd kv))) ps) = 0.
Proof.
  induction ps as [|[k x] ps IH]; intros H; [reflexivity|].
  cbn [forallb fst snd] in H. apply andb_prop in H as [H1 H2]. apply andb_prop in H1 as [Hk _].
  apply negb_true_iff in Hk. cbn [map proto_inits fst snd]. rewrite Hk. now apply IH.
Qed.

Lemma parse_json (v : json) (n : nat) (strict : bool) :
  jgood v = true -> S (jdepth v) < n -> parse_expr n strict (jtrees v) = POk (jexpr v).
Proof.
  revert n strict. induction v as [| b | z | s | l IH | ps IH] using json_ind'; intros n strict Hg Hn;
    (destruct n as [|n']; [lia|]).
  - reflexivity.
  - destruct b; reflexivity.
  - destruct z as [|p|p]; [reflexivity|reflexivity|].
    destruct n' as [|n'']; [cbn [jdepth] in Hn; lia|]. reflexivity.
  - reflexivity.
  - cbn [jtrees jdepth jgood] in *.
    cbn [parse_expr expr_step fun_expr primary_with postfix_with]. unfold elems_with.
    rewrite comma_pieces_join.
    2:{ apply List.Forall_map, List.Forall_forall. intros x _. apply jtrees_shape. }
    rewrite map_map, (all_ok_map _ jexpr); [reflexivity|].
    rewrite List.Forall_forall in IH |- *. intros x Hx.
    assert (Hgx : jgood x = true) by (rewrite forallb_forall in Hg; auto).
    assert (Hdx : S (jdepth x) < n').
    { pose proof (list_max_in (map jdepth l) (jdepth x) (in_map _ _ _ Hx)). lia. }
    destruct (jtrees x) eqn:E; [destruct (jtrees_shape x) as [Hne _]; contradiction|].
    rewrite <- E. now apply IH.
  - cbn [jtrees jdepth jgood] in *.
    cbn [parse_expr expr_step fun_expr primary_with postfix_with]. unfold props_with.
    apply andb_prop in Hg as [Hd Hg].
    rewrite comma_pieces_join.
    2:{ apply List.Forall_map, List.Forall_forall. intros [k x] _. split; [discriminate|].
        change (nosep 44 (jtrees x) = true). apply jtrees_shape. }
    rewrite map_map.
    rewrite (all_ok_map _ (fun kv => PInit (fst kv) (jexpr (snd kv)))).
    + cbn [pbind]. rewrite proto_inits_zero by exact Hg. reflexivity.
    + rewrite List.Forall_forall in IH |- *. intros [k x] Hx.
      assert (Hgx : jgood x = true).
      { rewrite forallb_forall in Hg. apply Hg in Hx. cbn [fst snd] in Hx.
        now apply andb_prop in Hx as [_ Hx]. }
      assert (Hdx : S (jdepth x) < n').
      { pose proof (list_max_in (map (fun kv => jdepth (snd kv)) ps) (jdepth x)
          (in_map (fun kv => jdepth (snd kv)) _ _ Hx)). cbn [snd] in *. lia. }
      specialize (IH (k, x) Hx n' true Hgx Hdx). cbn [snd] in IH.
      simpl. rewrite IH. reflexivity.
Qed.


(** *** Evaluation *)

Lemma define_own_fresh (acc : list (string * jsv)) (k : string) (v : jsv) :
  ~ In k (map fst acc) -> define_own acc k v = acc ++ [(k, v)].
Proof.
  induction acc as [|[k' v'] acc IH]; intros H; [reflexivity|].
  simpl in H. simpl. destruct (String.eqb k k') eqn:E.
  - apply String.eqb_eq in E. subst. tauto.
  - rewrite IH by tauto. reflexivity.
Qed.

Lemma has_dup_cons (k : string) (ks : list string) :
  has_dup (k :: ks) = false -> ~ In k ks /\ has_dup ks = false.
Proof.
  simpl. intros H. apply orb_false_iff in H as [H1 H2]. split; [|exact H2].
  intros Hin. assert (existsb (String.eqb k) ks = true) as Hc.
  { apply existsb_exists. exists k. split; [exact Hin | apply String.eqb_refl]. }
  congruence.
Qed.

Lemma num_value (z : Z) (en : env) (tr : list hcall) :
  num_safe z = true -> eval_expr en (num_expr z) tr = BOk (JNum z) tr.
Proof.
  intros Hs. destruct z as [|p|p].
  - reflexivity.
  - cbn [num_expr z_to_decimal eval_expr]. rewrite n_to_decimal_value.
    change (Z.of_N (N.pos p)) with (Z.pos p). cbn [z_to_decimal].
    rewrite String.eqb_refl, Hs. reflexivity.
  - cbn [num_expr eval_expr]. unfold bbind. rewrite n_to_decimal_value.
    change (Z.of_N (N.pos p)) with (Z.pos p). cbn [z_to_decimal].
    rewrite String.eqb_refl. replace (num_safe (Z.pos p)) with true by exact (eq_sym Hs). reflexivity.
Qed.

Lemma eval_json (v : json) (en : env) (tr : list hcall) :
  jgood v = true -> eval_expr en (jexpr v) tr = BOk (to_jsv v) tr.
Proof.
  revert tr. induction v as [| b | z | s | l IH | ps IH] using json_ind'; intros tr Hg.
  - reflexivity.
  - reflexivity.
  - now apply num_value.
  - reflexivity.
  - cbn [jexpr to_jsv jgood] in *. cbn [eval_expr]. unfold bbind at 1.
    match goal with
    | |- context [?G (map jexpr l) tr] =>
        assert (HG : forall l0, Forall (fun x => jgood x = true /\
                     forall tr, eval_expr en (jexpr x) tr = BOk (to_jsv x) tr) l0 ->
                   forall tr, G (map jexpr l0) tr = BOk (map to_jsv l0) tr)
    end.
    { induction 1 as [|x l0 [_ Hx] Hl0 IHl]; intros tr0; [reflexivity|].
      cbn [map]. unfold bbind at 1. rewrite Hx. unfold bbind. rewrite IHl. reflexivity. }
    rewrite HG; [reflexivity|].
    rewrite List.Forall_forall in IH |- *. intros x Hx.
    assert (Hgx : jgood x = true) by (rewrite forallb_forall in Hg; auto).
    split; [exact Hgx|]. intros tr0. now apply IH.
  - cbn [jexpr to_jsv jgood] in *. apply andb_prop in Hg as [Hd Hg]. cbn [eval_expr].
    unfold bbind at 1.
    match goal with
    | |- context [?G (PObject, []) (map ?f ps) tr] =>
        assert (HG : forall ps0 acc, has_dup (map fst ps0) = false ->
                   Forall (fun kv => ~ In (fst kv) (map fst acc)) ps0 ->
                   forallb (fun kv => negb (String.eqb (fst kv) "__proto__") && jgood (snd kv)) ps0 = true ->
                   Forall (fun kv => forall tr, eval_expr en (jexpr (snd kv)) tr = BOk (to_jsv (snd kv)) tr) ps0 ->
                   forall tr, G (PObject, acc) (map f ps0) tr =
                              BOk (PObject, acc ++ map (fun kv => (fst kv, to_jsv (snd kv))) ps0) tr)
    end.
    { induction ps0 as [|[k x] ps0 IHp]; intros acc Hnd Hfr Hok Hev tr0.
      - simpl. now rewrite app_nil_r.
      - cbn [map fst] in Hnd. apply has_dup_cons in Hnd as [Hk Hnd].
        inversion Hfr as [|? ? Hkacc Hfr0]; subst.
        inversion Hev as [|? ? Hx Hev0]; subst.
        cbn [forallb fst snd] in Hok. apply andb_prop in Hok as [Hok1 Hok0].
        apply andb_prop in Hok1 as [Hkp _]. apply negb_true_iff in Hkp.
        cbn [map fst snd]. unfold bbind at 1. cbn [snd] in Hx. rewrite Hx.
        unfold add_prop. cbn [andb]. rewrite Hkp.
        rewrite define_own_fresh by exact Hkacc.
        rewrite (IHp (acc ++ [(k, to_jsv x)])); [now rewrite <- app_assoc| exact Hnd | | exact Hok0 | exact Hev0].
        rewrite List.Forall_forall in Hfr0 |- *. intros [k' y] Hy. cbn [fst].
        rewrite map_app, in_app_iff. cbn. intros [Hin|[Heq|[]]].
        + exact (Hfr0 (k', y) Hy Hin).
        + subst k'. apply Hk. now apply (in_map fst) in Hy. }
    rewrite HG.
    + reflexivity.
    + now apply negb_true_iff in Hd.
    + apply List.Forall_forall. intros kv _. simpl. tauto.
    + exact Hg.
    + rewrite List.Forall_forall in IH |- *. intros [k x] Hx tr0. cbn [snd].
      assert (Hgx : jgood x = true).
      { rewrite forallb_forall in Hg. apply Hg in Hx. cbn [fst snd] in Hx.
        now apply andb_prop in Hx as [_ Hx]. }
      exact (IH (k, x) Hx tr0 Hgx).
Qed.


(** *** Serialisation on the server *)

Section Ser.
Variable user_fn : nat -> jsv -> list jsv -> option jsv.

Lemma jgood_jnums (v : json) : jgood v = true -> jnums v = true.
Proof.
  induction v as [| b | z | s | l IH | ps IH] using json_ind'; intros Hg; try reflexivity.
  - exact Hg.
  - cbn [jgood jnums] in *. rewrite forallb_forall in Hg |- *. rewrite List.Forall_forall in IH.
    intros x Hx. apply IH; [exact Hx | apply Hg, Hx].
  - cbn [jgood jnums] in *. apply andb_prop in Hg as [_ Hg].
    rewrite forallb_forall in Hg |- *. rewrite List.Forall_forall in IH.
    intros kv Hx. apply IH; [exact Hx|]. apply Hg in Hx. now apply andb_prop in Hx as [_ Hx].
Qed.

Lemma jgood_args_jnums (args : list json) : forallb jgood args = true -> jnums (JsArr args) = true.
Proof. intros H. apply (jgood_jnums (JsArr args)). exact H. Qed.

Lemma lookup_to_jsv_not_fun (v : json) (k : string) :
  match lookup (to_jsv v) k with Some (JFun _ _ _) => False | _ => True end.
Proof.
  destruct v as [| b | z | s | l | ps]; cbn [to_jsv lookup]; try exact I.
  induction ps as [|[k' x] ps IH]; cbn [map assoc fst snd]; [exact I|].
  destruct (String.eqb k k'); [|exact IH].
  destruct x; exact I.
Qed.

Lemma ser_json (v : json) (n : nat) (key : string) (tr : list call) :
  jnums v = true -> jdepth v <= n -> ser_prop user_fn n key (to_jsv v) tr = SOk (Some (json_text v)) tr.
Proof.
  revert n key tr. induction v as [| b | z | s | l IH | ps IH] using json_ind'; intros n key tr Hs Hn;
    (destruct n as [|n']; [cbn [jdepth] in Hn; lia|]); cbn [jnums] in Hs.
  - reflexivity.
  - destruct b; reflexivity.
  - cbn [ser_prop to_jsv]. unfold sbind at 1, sret at 1. unfold num_to_string. rewrite Hs. reflexivity.
  - reflexivity.
  - cbn [jdepth] in Hn. cbn [ser_prop to_jsv lookup]. unfold sbind at 1, sret at 1.
    unfold sbind at 1.
    match goal with
    | |- context [?G 0 (map to_jsv l) tr] =>
        assert (HG : forall l0, Forall (fun x => jdepth x <= n' /\
                     forall key tr, ser_prop user_fn n' key (to_jsv x) tr = SOk (Some (json_text x)) tr) l0 ->
                   forall i tr, G i (map to_jsv l0) tr = SOk (map json_text l0) tr)
    end.
    { induction 1 as [|x l0 [_ Hx] Hl0 IHl]; intros i tr0; [reflexivity|].
      cbn [map]. unfold sbind at 1. rewrite Hx. unfold sbind. rewrite IHl. reflexivity. }
    rewrite HG; [reflexivity|].
    rewrite List.Forall_forall in IH |- *. intros x Hx.
    assert (Hdx : jdepth x <= n').
    { pose proof (list_max_in (map jdepth l) (jdepth x) (in_map _ _ _ Hx)). lia. }
    split; [exact Hdx|]. intros key0 tr0. apply IH; [exact Hx| |exact Hdx].
    rewrite forallb_forall in Hs. now apply Hs.
  - cbn [jdepth] in Hn. cbn [ser_prop].
    pose proof (lookup_to_jsv_not_fun (JsObj ps) "toJSON") as Hl.
    destruct (lookup (to_jsv (JsObj ps)) "toJSON") as [[]|] eqn:El; try contradiction;
      cbn [to_jsv] in El |- *; unfold sbind at 1, sret at 1;
    unfold sbind at 1;
    (match goal with
    | |- context [?G (map ?f ps) tr] =>
        assert (HG : forall ps0, Forall (fun kv => jdepth (snd kv) <= n' /\
                     forall key tr, ser_prop user_fn n' key (to_jsv (snd kv)) tr = SOk (Some (json_text (snd kv))) tr) ps0 ->
                   forall tr, G (map f ps0) tr =
                     SOk (map (fun kv => (quote_json_string (fst kv) ++ ":" ++ json_text (snd kv))%string) ps0) tr)
    end;
    [ induction 1 as [|[k x] ps0 [_ Hx] Hps0 IHp]; intros tr0; [reflexivity|];
      cbn [map fst snd] in *; unfold sbind at 1; rewrite Hx; unfold sbind; rewrite IHp; reflexivity
    | rewrite HG; [reflexivity|];
      rewrite List.Forall_forall in IH |- *; intros [k x] Hx;
      assert (Hdx : jdepth x <= n') by
        (pose proof (list_max_in (map (fun kv => jdepth (snd kv)) ps) (jdepth x)
           (in_map (fun kv => jdepth (snd kv)) _ _ Hx)); cbn [snd] in *; lia);
      split; [exact Hdx|]; intros key0 tr0;
      refine (IH (k, x) Hx n' key0 tr0 _ Hdx);
      rewrite forallb_forall in Hs; exact (Hs (k, x) Hx) ]).
Qed.

Lemma ssrDispatch_text (limit fid : nat) (name src : string) (hps : list (string * jsv))
    (args : list json) (tr : list call) :
  assoc "toString" hps = None -> jnums (JsArr args) = true -> jdepth (JsArr args) <= limit ->
  ssrDispatch user_fn limit (JStr name) (JFun fid src hps) (map to_jsv args) tr =
  SOk (dispatch_text name src (json_text (JsArr args))) tr.
Proof.
  intros Hts Hs Hd. unfold ssrDispatch. unfold sbind at 1. cbn [to_string prim_to_string prim_result]. unfold sret at 1.
  unfold sbind at 1. cbn [to_string]. rewrite Hts. unfold sret at 1.
  unfold sbind, json_stringify.
  change (JArr (map to_jsv args)) with (to_jsv (JsArr args)).
  rewrite ser_json by (exact Hs || exact Hd). reflexivity.
Qed.

End Ser.


(** *** The generated text *)

Local Open Scope string_scope.
Local Open Scope list_scope.

Definition pt (c : ascii) : token := TPunct c.

Definition head_toks1 : list token :=
  [TIdent "const"; TIdent "name"; pt "="%char].
Definition head_toks2 : list token :=
  [pt ";"%char; TIdent "const"; TIdent "handler"; pt "="%char].
Definition mid_toks : list token :=
  [pt ";"%char; TIdent "const"; TIdent "args"; pt "="%char].
Definition entry_toks : list token :=
  [TIdent "name"; pt ","%char; TIdent "handler"; pt ","%char; TIdent "args"; pt ","%char;
   TIdent "target"; pt ":"%char; TIdent "this"; pt ","%char; TIdent "event"; pt ","%char].
Definition push_head : list token :=
  [pt ";"%char; TIdent "window"; pt "."%char; TIdent "dispatcher"; pt "."%char; TIdent "toReplay"; pt "."%char;
   TIdent "push"].
Definition push_toks : list token :=
  push_head ++ (open_tok Paren :: (open_tok Curly :: entry_toks ++ [close_tok Curly]) ++ [close_tok Paren])
  ++ [pt ";"%char].

Definition text_toks (name : string) (h j : list token) : list token :=
  open_tok Curly ::
    (head_toks1 ++ [TStr name] ++ head_toks2 ++ (open_tok Paren :: h ++ [close_tok Paren]) ++
     mid_toks ++ j ++ push_toks) ++ [close_tok Curly].


Lemma run_chars_seg3 (st st' : lstate) (a b c R : string) (ts acc : list token) :
  run_chars st (a ++ b ++ c) [] = LOk st' ts ->
  run_chars st (a ++ (b ++ (c ++ R))) acc = run_chars st' R (acc ++ ts).
Proof.
  intros H. rewrite <- (string_app_assoc b c R), <- (string_app_assoc a (b ++ c) R).
  now apply run_chars_app_ok.
Qed.

Definition tail_text : string :=
  nl ++
  "    window.dispatcher.toReplay.push({" ++ nl ++
  "        name," ++ nl ++
  "        handler," ++ nl ++
  "        args," ++ nl ++
  "        target: this," ++ nl ++
  "        event," ++ nl ++
  "    });" ++ nl ++
  "}".

Lemma lex_seg1 : run_chars LNormal ("{" ++ nl ++ "    const name = '") [] =
  LOk (LStr squote EmptyString) (open_tok Curly :: head_toks1).
Proof. reflexivity. Qed.

Lemma lex_seg2 (x : string) : run_chars (LStr squote x) ("';" ++ nl ++ "    const handler = (") [] =
  LOk LNormal (TStr x :: head_toks2 ++ [open_tok Paren]).
Proof. reflexivity. Qed.

Lemma lex_seg3 : run_chars LNormal (";" ++ nl ++ "    const args = ") [] = LOk LNormal mid_toks.
Proof. reflexivity. Qed.

(** The closing parenthesis after the handler source ends its last token. *)
Lemma step_close (st : lstate) (fin : list token) :
  finish st = Some fin -> step st ")"%char = LOk LNormal (fin ++ [close_tok Paren]).
Proof. destruct st; cbn [finish]; intros H; inversion H; subst; reflexivity. Qed.

Lemma lex_tail : run_chars LNormal tail_text [] = LOk LNormal (List.tl push_toks ++ [close_tok Curly]).
Proof. reflexivity. Qed.

Lemma lex_dispatch_text (name src : string) (htoks : list token) (v : json) :
  safe_name name = true -> lex src = LexOk htoks ->
  lex (dispatch_text name src (json_text v)) = LexOk (text_toks name htoks (flatten (jtrees v))).
Proof.
  intros Hn Hs. unfold lex in Hs.
  destruct (run_chars LNormal src []) as [st toks0| |] eqn:Es; try discriminate.
  destruct (finish st) as [fin|] eqn:Ef; try discriminate. injection Hs as <-.
  unfold lex, dispatch_text.
  rewrite (run_chars_seg3 _ _ _ _ _ _ _ _ lex_seg1).
  rewrite (run_chars_app_ok _ _ _ _ _ _ (safe_name_chars name EmptyString Hn)), string_app_nil_l.
  rewrite (run_chars_seg3 _ _ _ _ _ _ _ _ (lex_seg2 name)).
  rewrite (run_chars_app_ok _ _ _ _ _ _ Es).
  rewrite (string_app_cons ")"%char). cbn [run_chars]. rewrite (step_close st fin Ef).
  rewrite (run_chars_seg3 _ _ _ _ _ _ _ _ lex_seg3).
  rewrite (string_app_cons ";"%char EmptyString), string_app_nil_l.
  rewrite (lex_json v ";"%char _ _ eq_refl).
  fold tail_text. rewrite run_chars_acc, lex_tail. cbn [finish].
  unfold text_toks. rewrite app_nil_r. change push_toks with (pt ";"%char :: tl push_toks).
  unfold head_toks1, head_toks2, mid_toks.
  rewrite <- !app_assoc. cbn [List.app tl]. rewrite <- !app_assoc. reflexivity.
Qed.

Definition plain (t : token) : bool :=
  match open_bracket t, close_bracket t with None, None => true | _, _ => false end.

Lemma bal_plain (l : list token) : forallb plain l = true -> balanced l (map TTok l).
Proof.
  induction l as [|t l IH]; intros H stk cur; simpl.
  - now rewrite app_nil_r.
  - apply andb_prop in H as [Ht Hl]. unfold plain in Ht. unfold tree_step.
    destruct (open_bracket t); [discriminate|]. destruct (close_bracket t); [discriminate|].
    rewrite (IH Hl). now rewrite <- app_assoc.
Qed.

Definition dispatch_inner (name : string) (hts jt : list tree) : list tree :=
  map TTok head_toks1 ++ [TTok (TStr name)] ++ map TTok head_toks2 ++ [TGroup Paren hts] ++
  map TTok mid_toks ++ jt ++ map TTok push_head ++
  [TGroup Paren [TGroup Curly (map TTok entry_toks)]] ++ [TTok (pt ";"%char)].

Lemma bal_text (name : string) (htoks jtoks : list token) (hts jt : list tree) :
  balanced htoks hts -> balanced jtoks jt ->
  balanced (text_toks name htoks jtoks) [TGroup Curly (dispatch_inner name hts jt)].
Proof.
  intros Hh Hj. unfold text_toks, dispatch_inner, push_toks. apply bal_group.
  apply bal_app; [apply bal_plain; reflexivity|].
  apply bal_app; [apply bal_tok; reflexivity|].
  apply bal_app; [apply bal_plain; reflexivity|].
  apply bal_app; [apply bal_group, Hh|].
  apply bal_app; [apply bal_plain; reflexivity|].
  apply bal_app; [exact Hj|].
  apply bal_app; [apply bal_plain; reflexivity|].
  apply bal_app; [|apply bal_tok; reflexivity].
  apply bal_group. change [TGroup Curly (map TTok entry_toks)] with ([TGroup Curly (map TTok entry_toks)] ++ []).
  rewrite <- (app_nil_r (open_tok Curly :: entry_toks ++ [close_tok Curly])).
  apply bal_app; [apply bal_group, bal_plain; reflexivity|].
  intros stk cur. simpl. now rewrite app_nil_r.
Qed.

Lemma trees_text (name : string) (htoks jtoks : list token) (hts jt : list tree) :
  balanced htoks hts -> balanced jtoks jt ->
  trees (text_toks name htoks jtoks) = Some [TGroup Curly (dispatch_inner name hts jt)].
Proof.
  intros Hh Hj. unfold trees. rewrite (bal_text name htoks jtoks hts jt Hh Hj [] []). reflexivity.
Qed.

Definition push_call : expr :=
  ECall (EMember (EMember (EMember (EIdent "window") "dispatcher") "toReplay") "push")
    [EObj [PShort "name"; PShort "handler"; PShort "args"; PInit "target" EThis; PShort "event"]].

(** *** More fuel gives the same parse *)

Lemma all_ok_le {A B : Type} (f g : A -> presult B) :
  (forall x a, f x = POk a -> g x = POk a) ->
  forall l r, all_ok (map f l) = POk r -> all_ok (map g l) = POk r.
Proof.
  intros Hfg l. induction l as [|x l IH]; intros r H; [exact H|].
  cbn [map all_ok] in *. unfold pbind in *.
  destruct (f x) as [a| |] eqn:E; try discriminate H. rewrite (Hfg _ _ E).
  destruct (all_ok (map f l)) as [l'| |] eqn:E'; try discriminate H. rewrite (IH _ eq_refl). exact H.
Qed.

Section Mono.
Variables pe1 pe2 : bool -> list tree -> presult expr.
Variables pb1 pb2 : list tree -> presult (list stmt).
Hypothesis Hpe : forall s ts e, pe1 s ts = POk e -> pe2 s ts = POk e.
Hypothesis Hpb : forall ts ss, pb1 ts = POk ss -> pb2 ts = POk ss.

(* The two sides of a step differ only in the functions for the nested
   levels: follow the hypothesis and the goal case by case. *)
Ltac lift H t lem :=
  let E := fresh "E" in
  destruct t eqn:E; [apply lem in E; rewrite E | discriminate H | discriminate H].

Ltac par_step :=
  match goal with
  | H : ?a = POk _ |- ?a = POk _ => exact H
  | H : pe1 ?s ?t = POk _ |- pe2 ?s ?t = POk _ => exact (Hpe _ _ _ H)
  | H : pb1 ?t = POk _ |- pb2 ?t = POk _ => exact (Hpb _ _ H)
  | H : match pe1 ?s ?t with _ => _ end = POk _ |- _ => lift H (pe1 s t) Hpe
  | H : match pb1 ?t with _ => _ end = POk _ |- _ => lift H (pb1 t) Hpb
  | H : PSyntax = POk _ |- _ => discriminate H
  | H : PUnsup = POk _ |- _ => discriminate H
  | H : match ?x with _ => _ end = POk _ |- _ =>
      lazymatch x with
      | context [pe1] => fail
      | context [pb1] => fail
      | _ => let E := fresh "E" in destruct x eqn:E
      end
  end.

Ltac par extra := unfold pbind in *; repeat (cbn beta iota in *; first [extra | par_step]).

Lemma elems_with_le (inner : list tree) (es : list expr) :
  elems_with pe1 inner = POk es -> elems_with pe2 inner = POk es.
Proof.
  unfold elems_with. apply all_ok_le. intros [|t p] a H; [exact H | exact (Hpe _ _ _ H)].
Qed.

Lemma prop_with_le (p : list tree) (v : prop) : prop_with pe1 p = POk v -> prop_with pe2 p = POk v.
Proof. intros H. unfold prop_with in *. par fail. Qed.

Lemma props_with_le (inner : list tree) (ps : list prop) :
  props_with pe1 inner = POk ps -> props_with pe2 inner = POk ps.
Proof.
  intros H. unfold props_with in *.
  par ltac:(idtac; match goal with
            | H : match all_ok ?l with _ => _ end = POk _ |- _ =>
                lift H (all_ok l) (all_ok_le _ _ prop_with_le)
            end).
Qed.

Lemma primary_with_le (t : tree) (e : expr) : primary_with pe1 t = POk e -> primary_with pe2 t = POk e.
Proof.
  intros H. unfold primary_with in *.
  par ltac:(idtac; match goal with
            | H : match elems_with pe1 ?i with _ => _ end = POk _ |- _ => lift H (elems_with pe1 i) elems_with_le
            | H : match props_with pe1 ?i with _ => _ end = POk _ |- _ => lift H (props_with pe1 i) props_with_le
            end).
Qed.

Lemma postfix_with_le (strict : bool) :
  forall rest e r, postfix_with pe1 strict e rest = POk r -> postfix_with pe2 strict e rest = POk r.
Proof.
  fix IH 1. intros rest e0 r H. destruct rest as [|t rest]; [exact H|].
  cbn [postfix_with] in *.
  par ltac:(idtac; match goal with
            | H : match elems_with pe1 ?i with _ => _ end = POk _ |- _ => lift H (elems_with pe1 i) elems_with_le
            | H : postfix_with pe1 _ _ _ = POk _ |- _ => apply IH in H; exact H
            end).
Qed.

Lemma fun_check_le (strict : bool) (ts ps body : list tree) (e : expr) :
  fun_check pe1 pb1 strict ts ps body = POk e -> fun_check pe2 pb2 strict ts ps body = POk e.
Proof. intros H. unfold fun_check in *. par fail. Qed.

Lemma expr_step_le (strict : bool) (ts : list tree) (e : expr) :
  expr_step pe1 pb1 strict ts = POk e -> expr_step pe2 pb2 strict ts = POk e.
Proof.
  intros H. unfold expr_step in *.
  par ltac:(idtac; match goal with
            | H : fun_check pe1 pb1 _ _ _ _ = POk _ |- _ => apply fun_check_le in H; exact H
            | H : postfix_with pe1 _ _ _ = POk _ |- _ => apply postfix_with_le in H; exact H
            | H : match primary_with pe1 ?t with _ => _ end = POk _ |- _ => lift H (primary_with pe1 t) primary_with_le
            end).
Qed.

Lemma piece_with_le :
  forall p ss, piece_with pe1 pb1 p = POk ss -> piece_with pe2 pb2 p = POk ss.
Proof.
  fix IH 1. intros p ss H. destruct p as [|t p]; [exact H|].
  cbn [piece_with] in *.
  par ltac:(idtac; match goal with
            | H : match piece_with pe1 pb1 ?q with _ => _ end = POk _ |- _ => lift H (piece_with pe1 pb1 q) IH
            end).
Qed.

Lemma block_step_le (ts : list tree) (ss : list stmt) :
  block_step pe1 pb1 ts = POk ss -> block_step pe2 pb2 ts = POk ss.
Proof.
  intros H. unfold block_step in *.
  par ltac:(idtac; match goal with
            | H : match all_ok ?l with _ => _ end = POk _ |- _ =>
                lift H (all_ok l) (all_ok_le _ _ piece_with_le)
            end).
Qed.

End Mono.

Lemma parse_mono (n : nat) :
  (forall m strict ts e, n <= m -> parse_expr n strict ts = POk e -> parse_expr m strict ts = POk e) /\
  (forall m ts ss, n <= m -> parse_block n ts = POk ss -> parse_block m ts = POk ss).
Proof.
  induction n as [|n [IHe IHb]]; split.
  - intros m strict ts e _ H. discriminate H.
  - intros m ts ss _ H. discriminate H.
  - intros [|m] strict ts e Hle H; [lia|]. cbn [parse_expr] in *.
    apply (expr_step_le (parse_expr n) (parse_expr m) (parse_block n) (parse_block m)); [| |exact H].
    + intros s t x Hx. apply IHe; [lia | exact Hx].
    + intros t x Hx. apply IHb; [lia | exact Hx].
  - intros [|m] ts ss Hle H; [lia|]. cbn [parse_block] in *.
    apply (block_step_le (parse_expr n) (parse_expr m) (parse_block n) (parse_block m)); [| |exact H].
    + intros s t x Hx. apply IHe; [lia | exact Hx].
    + intros t x Hx. apply IHb; [lia | exact Hx].
Qed.

Lemma split_on_single (c : nat) (ts p : list tree) : split_on c ts = [p] -> p = ts.
Proof.
  revert p; induction ts as [|t ts IH]; intros p H; simpl in H.
  - now inversion H.
  - destruct (is_punct_tree c t).
    + destruct ts; simpl in H; [discriminate|]. destruct (is_punct_tree c t0); [discriminate|].
      destruct (split_on c ts); discriminate.
    + destruct (split_on c ts) as [|q qs] eqn:E.
      * destruct ts; simpl in E; [discriminate|]. destruct (is_punct_tree c t0); [discriminate|].
        destruct (split_on c ts); discriminate.
      * inversion H; subst. now rewrite (IH q eq_refl).
Qed.

Definition push_trees : list tree :=
  map TTok (tl push_head) ++ [TGroup Paren [TGroup Curly (map TTok entry_toks)]].

Lemma parse_block_inner (k : nat) (name : string) (hts ps body g : list tree) (e : expr) :
  parse_expr k false [TTok (TStr name)] = POk (EStr name) ->
  parse_expr k false [TGroup Paren hts] = POk (EFun ps body) ->
  parse_expr k false [TGroup Square g] = POk e ->
  parse_expr k false push_trees = POk push_call ->
  parse_block (S k) (dispatch_inner name hts [TGroup Square g]) =
  POk [SConst "name" (EStr name); SConst "handler" (EFun ps body); SConst "args" e; SExpr push_call].
Proof.
  intros H1 H2 H3 H4. cbn [parse_block]. unfold block_step. simpl. rewrite H1, H2, H3. unfold push_trees in H4. simpl in H4. rewrite H4.
  reflexivity.
Qed.

Lemma parse_name (m : nat) (name : string) :
  parse_expr (S m) false [TTok (TStr name)] = POk (EStr name).
Proof. reflexivity. Qed.

Lemma parse_push (m : nat) : parse_expr (S (S (S m))) false push_trees = POk push_call.
Proof. reflexivity. Qed.

Lemma parse_paren (m : nat) (hts : list tree) (e : expr) :
  split_on 44 hts = [hts] -> parse_expr m true hts = POk e ->
  parse_expr (S m) false [TGroup Paren hts] = POk e.
Proof.
  intros Hc Hf. cbn [parse_expr]. unfold expr_step.
  replace (fun_expr [TGroup Paren hts]) with (@None (list tree * list tree)) by reflexivity.
  cbn [primary_with]. rewrite Hc. destruct hts as [|t hts'].
  - destruct m; discriminate Hf.
  - rewrite Hf. reflexivity.
Qed.

(** The parameters and body [handler_closure] gives, as the parser reads
    the handler at any larger fuel. *)
Lemma handler_closure_parse (src : string) (ps body : list tree) :
  handler_closure src = Some (ps, body) ->
  exists toks hts, lex src = LexOk toks /\ trees toks = Some hts /\ split_on 44 hts = [hts] /\
    forall m, length toks < m -> parse_expr m true hts = POk (EFun ps body).
Proof.
  unfold handler_closure. intros Hh.
  destruct (lex src) as [toks| |] eqn:El; try discriminate.
  destruct (trees toks) as [hts|] eqn:Et; try discriminate.
  destruct (split_on 44 hts) as [|p [|]] eqn:Ec; try discriminate.
  pose proof (split_on_single _ _ _ Ec) as Ep. subst p.
  destruct (parse_expr (S (length toks)) true hts) as [[]| |] eqn:Ep; try discriminate.
  injection Hh as <- <-.
  exists toks, hts. refine (conj _ (conj _ (conj Ec _))); [first [exact El | reflexivity] | first [exact Et | reflexivity] |].
  intros m Hm. apply (proj1 (parse_mono (S (length toks)))); [lia | exact Ep].
Qed.

Lemma parse_block_group (L : nat) (X : list tree) (b : list stmt) :
  parse_block L X = POk b -> parse_block (S L) [TGroup Curly X] = POk [SBlock b].
Proof. intros H. cbn [parse_block]. unfold block_step. cbn. rewrite H. reflexivity. Qed.

Lemma join_tokens {A : Type} (f : A -> nat) (g : A -> list tree) (l : list A) :
  Forall (fun x => f x <= length (flatten (g x))) l ->
  list_max (map f l) <= length (flatten (join_trees (map g l))).
Proof.
  induction 1 as [|x l Hx Hl IH]; [simpl; lia|].
  destruct l as [|y l'].
  - cbn [map join_trees list_max fold_right]. lia.
  - change (join_trees (map g (x :: y :: l'))) with (g x ++ comma :: join_trees (map g (y :: l'))).
    rewrite flatten_app, flatten_cons, !length_app.
    change (list_max (map f (x :: y :: l'))) with (Nat.max (f x) (list_max (map f (y :: l')))). lia.
Qed.

Lemma jdepth_tokens (v : json) : jdepth v <= length (flatten (jtrees v)).
Proof.
  induction v as [| b | z | s | l IH | ps IH] using json_ind'.
  - simpl; lia.
  - destruct b; simpl; lia.
  - destruct z; simpl; lia.
  - simpl; lia.
  - cbn [jdepth jtrees]. rewrite flatten_cons. cbn [flat]. fold (flatten (join_trees (map jtrees l))).
    rewrite length_app. cbn [length].
    rewrite !length_app. cbn [length flatten concat map].
    pose proof (join_tokens jdepth jtrees l IH). lia.
  - cbn [jdepth jtrees]. rewrite flatten_cons. cbn [flat].
    match goal with |- context [concat (map flat (join_trees ?J))] => fold (flatten (join_trees J)) end.
    rewrite !length_app. cbn [length flatten concat map].
    assert (H : Forall (fun kv => jdepth (snd kv) <=
              length (flatten (TTok (TStr (fst kv)) :: TTok (TPunct ":"%char) :: jtrees (snd kv)))) ps).
    { eapply List.Forall_impl; [|exact IH]. intros [k x] Hx. cbn [fst snd] in *.
      rewrite !flatten_cons. cbn [flat length concat map]. rewrite !length_app. cbn [length]. lia. }
    pose proof (join_tokens _ _ ps H). rewrite length_app. lia.
Qed.

Lemma text_toks_length (name : string) (h j : list token) :
  length (text_toks name h j) = 41 + length h + length j.
Proof. unfold text_toks, push_toks. cbn [length]. rewrite !length_app. cbn [length]. rewrite !length_app. simpl. lia. Qed.

Lemma eval_dispatch (name : string) (ps body : list tree) (e : expr) (jv : jsv) :
  (forall en tr, eval_expr en e tr = BOk jv tr) ->
  exists en', eval_stmts [[]; [("event", Some (JHost ["event"]))]]
    [SBlock [SConst "name" (EStr name); SConst "handler" (EFun ps body); SConst "args" e; SExpr push_call]] [] =
  BOk en' [mkHCall queue_push [replay_entry name (JClo ps body) jv]].
Proof.
  intros He. eexists. simpl. unfold bbind, bret. simpl. rewrite He. simpl. unfold eval_ident, get_member, call_value. simpl. reflexivity.
Qed.

Lemma run_dispatch (name src : string) (ps body : list tree) (args : list json) :
  safe_name name = true -> handler_closure src = Some (ps, body) -> forallb jgood args = true ->
  run_handler (dispatch_text name src (json_text (JsArr args))) =
  ORan [mkHCall queue_push [replay_entry name (JClo ps body) (to_jsv (JsArr args))]].
Proof.
  intros Hn Hh Hg.
  destruct (handler_closure_parse src ps body Hh) as (htoks & hts & Es & Et & Ec & Hp).
  unfold run_handler. rewrite (lex_dispatch_text name src htoks (JsArr args) Hn Es).
  rewrite (trees_text name htoks _ hts _ (trees_balanced _ _ Et) (bal_json (JsArr args))).
  rewrite text_toks_length.
  pose proof (jdepth_tokens (JsArr args)) as Hd.
  remember (length (flatten (jtrees (JsArr args)))) as J eqn:EJ.
  replace (S (41 + length htoks + J)) with (S (S (S (S (S (S (36 + length htoks + J))))))) by lia.
  assert (Hgv : jgood (JsArr args) = true) by exact Hg.
  set (k0 := 36 + length htoks + J).
  change (dispatch_inner name hts (jtrees (JsArr args)))
    with (dispatch_inner name hts [TGroup Square (join_trees (map jtrees args))]).
  rewrite (parse_block_group _ _ _
    (parse_block_inner (S (S (S (S k0)))) name hts ps body (join_trees (map jtrees args)) (jexpr (JsArr args))
       (parse_name (S (S (S k0))) name) (parse_paren (S (S (S k0))) hts _ Ec (Hp (S (S (S k0))) ltac:(unfold k0; lia)))
       (parse_json (JsArr args) (S (S (S (S k0)))) false Hgv ltac:(unfold k0; lia)) (parse_push (S k0)))).
  cbn [const_names map].
  destruct (eval_dispatch name ps body (jexpr (JsArr args)) (to_jsv (JsArr args))
              (fun en tr => eval_json (JsArr args) en tr Hgv)) as [en' He].
  rewrite He. reflexivity.
Qed.

End DispatchFacts.


Module PropsFacts.
Import Props.

Section Run.
Variable ext_call : loc -> list value -> heap -> option (value * heap).

(** The objects built by a successful run of [ssrDefaultProps]. *)
Definition actions_obj : obj := object_create_null.
Definition props_obj (st d r wire : value) (a : loc) : obj :=
  mkObj None [("state", st); ("actions", VRef a); ("dispatch", d);
              ("render", r); ("_wire", wire)] false.

(** The two locations a successful run allocates, given the heap [h']
    that [wire()] left. *)
Definition actions_loc (h' : heap) : loc := fresh (dom h').
Definition run_heap1 (h' : heap) : heap := <[actions_loc h' := actions_obj]> h'.
Definition props_loc (h' : heap) : loc := fresh (dom (run_heap1 h')).
Definition run_heap (h' : heap) (st d r wv : value) : heap :=
  <[props_loc h' := props_obj st d r wv (actions_loc h')]> (run_heap1 h').

Lemma get_null_proto (h : heap) (l : loc) (ps : list (string * value)) (c : bool) (k : string) :
  h !! l = Some (mkObj None ps c) ->
  get h l k = match assoc k ps with Some v => v | None => VUndefined end.
Proof.
  intros Hl. unfold get. simpl. rewrite Hl. simpl.
  destruct (assoc k ps); reflexivity.
Qed.

(** A run on an input object whose [wire] property is a callable object. *)
Lemma ssrDefaultProps_run (w : world) (li wl : loc) (st d r : value) (ow : obj) (h' : heap) :
  get (wheap w) li "state" = st ->
  get (wheap w) li "dispatch" = d ->
  get (wheap w) li "wire" = VRef wl ->
  wheap w !! wl = Some ow -> callable ow = true ->
  ext_call wl [] (wheap w) = Some (r, h') ->
  ssrDefaultProps ext_call (VRef li) w
  = Ok (VRef (props_loc h')) (mkWorld (run_heap h' st d r (VRef wl)) (wcalls w ++ [(wl, [])])).
Proof.
  intros Hs Hd Hw Hwl Hc He.
  unfold ssrDefaultProps, bind, get_prop, call, alloc, ret; simpl.
  rewrite Hs, Hd, Hw, Hwl, Hc, He. reflexivity.
Qed.

Lemma run_fresh_not_old (h' : heap) (l : loc) (o : obj) :
  h' !! l = Some o -> l <> actions_loc h' /\ l <> props_loc h'.
Proof.
  unfold props_loc, run_heap1, actions_loc.
  intros Hl. split.
  - intros ->. apply (is_fresh (dom h')). apply elem_of_dom. eauto.
  - intros Heq. apply (is_fresh (dom (<[fresh (dom h') := actions_obj]> h'))).
    rewrite <- Heq. apply elem_of_dom. rewrite lookup_insert_ne; [eauto|].
    intros Heq'. apply (is_fresh (dom h')). rewrite Heq'. apply elem_of_dom. eauto.
Qed.

Lemma props_loc_ne (h' : heap) : props_loc h' <> actions_loc h'.
Proof.
  unfold props_loc, run_heap1. intros Heq.
  apply (is_fresh (dom (<[actions_loc h' := actions_obj]> h'))).
  rewrite Heq. apply elem_of_dom. rewrite lookup_insert_eq. eauto.
Qed.

Lemma run_lookup_props (h' : heap) (st d r wv : value) :
  run_heap h' st d r wv !! props_loc h' = Some (props_obj st d r wv (actions_loc h')).
Proof. apply lookup_insert_eq. Qed.

Lemma run_lookup_actions (h' : heap) (st d r wv : value) :
  run_heap h' st d r wv !! actions_loc h' = Some actions_obj.
Proof.
  unfold run_heap. rewrite lookup_insert_ne.
  - apply lookup_insert_eq.
  - apply props_loc_ne.
Qed.

Lemma run_lookup_frame (h' : heap) (st d r wv : value) (l : loc) :
  l <> actions_loc h' -> l <> props_loc h' ->
  run_heap h' st d r wv !! l = h' !! l.
Proof.
  intros Ha Hp. unfold run_heap, run_heap1.
  rewrite lookup_insert_ne by congruence.
  rewrite lookup_insert_ne by congruence. reflexivity.
Qed.

End Run.
End PropsFacts.

Module PropsClaims.
Import Props PropsFacts.

Ltac run_get :=
  erewrite get_null_proto; [| first [apply run_lookup_props | apply run_lookup_actions]];
  reflexivity.

Lemma assoc_not_in (k : string) (ps : list (string * value)) :
  ~ In k (map fst ps) -> assoc k ps = None.
Proof.
  induction ps as [| [k' v] ps IH]; simpl; intros Hn; [reflexivity|].
  destruct (String.eqb_spec k k') as [-> | Hne].
  - exfalso. apply Hn. left. reflexivity.
  - apply IH. intros Hi. apply Hn. right. exact Hi.
Qed.

Section Claims.
Variable ext_call : loc -> list value -> heap -> option (value * heap).

(** C2: on an argument [{state, dispatch, wire}] whose [wire] is a function,
    [ssrDefaultProps] returns a props object whose [state] is the given
    state, whose [actions] is an empty object (no property name yields a
    value), whose [dispatch] is the given dispatch, and whose [render] is
    the result of the one call [wire()], made with no arguments. *)
Theorem ssrDefaultProps_default_props (w : world) (li wl : loc) (st d r : value)
    (ow : obj) (h' : heap) :
  get (wheap w) li "state" = st ->
  get (wheap w) li "dispatch" = d ->
  get (wheap w) li "wire" = VRef wl ->
  wheap w !! wl = Some ow -> callable ow = true ->
  ext_call wl [] (wheap w) = Some (r, h') ->
  exists p a w',
    ssrDefaultProps ext_call (VRef li) w = Ok (VRef p) w' /\
    get (wheap w') p "state" = st /\
    get (wheap w') p "actions" = VRef a /\
    (forall k, get (wheap w') a k = VUndefined) /\
    get (wheap w') p "dispatch" = d /\
    get (wheap w') p "render" = r /\
    wcalls w' = wcalls w ++ [(wl, [])].
Proof.
  intros Hs Hd Hw Hwl Hc He.
  do 3 eexists. split; [eapply ssrDefaultProps_run; eauto|]. simpl.
  split; [run_get|]. split; [run_get|]. split; [intros k; run_get|].
  split; [run_get|]. split; [run_get|]. reflexivity.
Qed.

(** C5: the [state] field of the result is the State reference that was
    passed in, not a copy: the function creates exactly two objects (the
    props and the [actions] object), both distinct from the State, and leaves
    every other location, the State included, as [wire()] left it. *)
Theorem ssrDefaultProps_shares_state (w : world) (li wl s : loc) (d r : value)
    (ow so : obj) (h' : heap) :
  get (wheap w) li "state" = VRef s ->
  get (wheap w) li "dispatch" = d ->
  get (wheap w) li "wire" = VRef wl ->
  wheap w !! wl = Some ow -> callable ow = true ->
  ext_call wl [] (wheap w) = Some (r, h') ->
  h' !! s = Some so ->
  exists p a w',
    ssrDefaultProps ext_call (VRef li) w = Ok (VRef p) w' /\
    get (wheap w') p "state" = VRef s /\
    p <> s /\ a <> s /\
    wheap w' !! s = Some so /\
    (forall l, l <> a -> l <> p -> wheap w' !! l = h' !! l).
Proof.
  intros Hs Hd Hw Hwl Hc He Hso.
  destruct (run_fresh_not_old h' s so Hso) as [Ha Hp].
  exists (props_loc h'), (actions_loc h'). eexists. split; [eapply ssrDefaultProps_run; eauto|]. simpl.
  split; [run_get|].
  split; [congruence|]. split; [congruence|].
  split.
  - rewrite run_lookup_frame by assumption. exact Hso.
  - intros l Hla Hlp. apply run_lookup_frame; assumption.
Qed.

(** The own property names of the props object. *)
Definition props_keys : list string := ["state"; "actions"; "dispatch"; "render"; "_wire"].

(** C9: both objects have a null prototype; [actions] has no property at
    all, so every property name reads [undefined] on it; the props object has
    exactly the own properties [state], [actions], [dispatch], [render] and
    [_wire], and every other name reads [undefined] on it. *)
Theorem ssrDefaultProps_null_prototypes (w : world) (li wl : loc) (st d r : value)
    (ow : obj) (h' : heap) :
  get (wheap w) li "state" = st ->
  get (wheap w) li "dispatch" = d ->
  get (wheap w) li "wire" = VRef wl ->
  wheap w !! wl = Some ow -> callable ow = true ->
  ext_call wl [] (wheap w) = Some (r, h') ->
  exists p a w' ps,
    ssrDefaultProps ext_call (VRef li) w = Ok (VRef p) w' /\
    wheap w' !! p = Some (mkObj None ps false) /\
    map fst ps = props_keys /\
    get (wheap w') p "actions" = VRef a /\
    wheap w' !! a = Some (mkObj None [] false) /\
    (forall k, get (wheap w') a k = VUndefined) /\
    (forall k, ~ In k props_keys -> get (wheap w') p k = VUndefined).
Proof.
  intros Hs Hd Hw Hwl Hc He.
  do 4 eexists. split; [eapply ssrDefaultProps_run; eauto|]. simpl.
  split; [apply run_lookup_props|]. split; [reflexivity|].
  split; [run_get|]. split; [apply run_lookup_actions|].
  split; [intros k; run_get|].
  intros k Hk. erewrite get_null_proto; [|apply run_lookup_props].
  rewrite assoc_not_in; [reflexivity | exact Hk].
Qed.

(** C7 (amended): the props object built by [ssrDefaultProps] has exactly
    the own properties [state], [actions], [dispatch], [render] and [_wire];
    it has no [cn] property, and reading [cn] on it yields [undefined]. *)
Theorem ssrDefaultProps_no_cn (w : world) (li wl : loc) (st d r : value)
    (ow : obj) (h' : heap) :
  get (wheap w) li "state" = st ->
  get (wheap w) li "dispatch" = d ->
  get (wheap w) li "wire" = VRef wl ->
  wheap w !! wl = Some ow -> callable ow = true ->
  ext_call wl [] (wheap w) = Some (r, h') ->
  exists p w' o,
    ssrDefaultProps ext_call (VRef li) w = Ok (VRef p) w' /\
    wheap w' !! p = Some o /\
    map fst (props o) = props_keys /\
    assoc "cn" (props o) = None /\
    get (wheap w') p "cn" = VUndefined.
Proof.
  intros Hs Hd Hw Hwl Hc He.
  do 3 eexists. split; [eapply ssrDefaultProps_run; eauto|]. simpl.
  split; [apply run_lookup_props|]. simpl.
  split; [reflexivity|]. split; [reflexivity|]. run_get.
Qed.

(** C10 (amended): the [_wire] field is the [wire] function itself, the
    [render] field is the value returned by [wire()], and [ssrDefaultProps]
    makes exactly one call, [wire()] with no arguments. *)
Theorem ssrDefaultProps_wire_and_render (w : world) (li wl : loc) (st d r : value)
    (ow : obj) (h' : heap) :
  get (wheap w) li "state" = st ->
  get (wheap w) li "dispatch" = d ->
  get (wheap w) li "wire" = VRef wl ->
  wheap w !! wl = Some ow -> callable ow = true ->
  ext_call wl [] (wheap w) = Some (r, h') ->
  exists p w',
    ssrDefaultProps ext_call (VRef li) w = Ok (VRef p) w' /\
    get (wheap w') p "_wire" = VRef wl /\
    get (wheap w') p "render" = r /\
    wcalls w' = wcalls w ++ [(wl, [])].
Proof.
  intros Hs Hd Hw Hwl Hc He.
  do 2 eexists. split; [eapply ssrDefaultProps_run; eauto|]. simpl.
  split; [run_get|]. split; [run_get|]. reflexivity.
Qed.

End Claims.

(** The examples below run [ssrDefaultProps] on [demo_world]. *)

(** Witness of C2. *)
Lemma ssrDefaultProps_default_props_witness :
  exists p a w',
    ssrDefaultProps wire_fresh (VRef 1%N) demo_world = Ok (VRef p) w' /\
    get (wheap w') p "state" = VRef 3%N /\
    get (wheap w') p "actions" = VRef a /\
    (forall k, get (wheap w') a k = VUndefined) /\
    get (wheap w') p "dispatch" = VRef 4%N /\
    get (wheap w') p "render" = VRef 5%N /\
    wcalls w' = wcalls demo_world ++ [(2%N, [])].
Proof.
  eapply (ssrDefaultProps_default_props wire_fresh demo_world 1%N 2%N (VRef 3%N) (VRef 4%N)
            (VRef 5%N) (mkObj (Some 0%N) [] true)); vm_compute; reflexivity.
Defined.

(** Witness of C5. *)
Lemma ssrDefaultProps_shares_state_witness :
  exists p a w',
    ssrDefaultProps wire_fresh (VRef 1%N) demo_world = Ok (VRef p) w' /\
    get (wheap w') p "state" = VRef 3%N /\
    p <> 3%N /\ a <> 3%N /\
    wheap w' !! 3%N = Some (mkObj (Some 0%N) [("foo", VBool true)] false) /\
    (forall l, l <> a -> l <> p ->
       wheap w' !! l = (<[5%N := mkObj (Some 0%N) [] true]> demo_heap) !! l).
Proof.
  eapply (ssrDefaultProps_shares_state wire_fresh demo_world 1%N 2%N 3%N (VRef 4%N)
            (VRef 5%N) (mkObj (Some 0%N) [] true)); vm_compute; reflexivity.
Defined.

(** Witness of C9. *)
Lemma ssrDefaultProps_null_prototypes_witness :
  exists p a w' ps,
    ssrDefaultProps wire_fresh (VRef 1%N) demo_world = Ok (VRef p) w' /\
    wheap w' !! p = Some (mkObj None ps false) /\
    map fst ps = props_keys /\
    get (wheap w') p "actions" = VRef a /\
    wheap w' !! a = Some (mkObj None [] false) /\
    (forall k, get (wheap w') a k = VUndefined) /\
    (forall k, ~ In k props_keys -> get (wheap w') p k = VUndefined).
Proof.
  eapply (ssrDefaultProps_null_prototypes wire_fresh demo_world 1%N 2%N (VRef 3%N) (VRef 4%N)
            (VRef 5%N) (mkObj (Some 0%N) [] true)); vm_compute; reflexivity.
Defined.

(** Witness of the amended C7. *)
Lemma ssrDefaultProps_no_cn_witness :
  exists p w' o,
    ssrDefaultProps wire_fresh (VRef 1%N) demo_world = Ok (VRef p) w' /\
    wheap w' !! p = Some o /\
    map fst (props o) = props_keys /\
    assoc "cn" (props o) = None /\
    get (wheap w') p "cn" = VUndefined.
Proof.
  eapply (ssrDefaultProps_no_cn wire_fresh demo_world 1%N 2%N (VRef 3%N) (VRef 4%N)
            (VRef 5%N) (mkObj (Some 0%N) [] true)); vm_compute; reflexivity.
Defined.

(** Witness of the amended C10. *)
Lemma ssrDefaultProps_wire_and_render_witness :
  exists p w',
    ssrDefaultProps wire_fresh (VRef 1%N) demo_world = Ok (VRef p) w' /\
    get (wheap w') p "_wire" = VRef 2%N /\
    get (wheap w') p "render" = VRef 5%N /\
    wcalls w' = wcalls demo_world ++ [(2%N, [])].
Proof.
  eapply (ssrDefaultProps_wire_and_render wire_fresh demo_world 1%N 2%N (VRef 3%N) (VRef 4%N)
            (VRef 5%N) (mkObj (Some 0%N) [] true)); vm_compute; reflexivity.
Defined.

(** C7 counterexample: the props object of a run on [demo_world] has no own
    [cn] property, and reading [cn] on it yields [undefined]. *)
Lemma ssrDefaultProps_demo_lacks_cn :
  match ssrDefaultProps wire_fresh (VRef 1%N) demo_world with
  | Ok (VRef p) w' =>
      (match wheap w' !! p with Some o => assoc "cn" (props o) | None => None end) = None /\
      get (wheap w') p "cn" = VUndefined
  | _ => False
  end.
Proof. vm_compute. split; reflexivity. Qed.

(** C10 counterexample: with [const wire = () => wire], the [render] and
    [_wire] fields of the props object are the same value. *)
Lemma ssrDefaultProps_render_can_equal_wire :
  match ssrDefaultProps wire_self (VRef 1%N) demo_world with
  | Ok (VRef p) w' => get (wheap w') p "render" = get (wheap w') p "_wire"
  | _ => False
  end.
Proof. vm_compute. reflexivity. Qed.

End PropsClaims.

(** ** Claims about [ssrDispatch] *)

Module DispatchClaims.
Import JS Server Browser Json DispatchFacts.
Local Open Scope string_scope.
Local Open Scope list_scope.

(** A user function for the examples: every call returns the string [x]. *)
Definition demo_user_fn (fid : nat) (this : jsv) (args : list jsv) : option jsv := Some (JStr "x").

(** The trees of the example handler source [x => x]. *)
Definition x_tree : list tree := [TTok (TIdent "x")].

(** C1 (as amended): when the name has no quote, backslash or line
    terminator, the handler is a function value without an own [toString]
    whose source the browser's parser reads as one function or arrow
    function expression ([handler_closure]: distinct identifier parameters,
    a body of [const] declarations, expression statements and blocks, or an
    expression), and the arguments are plain JSON values (distinct object
    keys, none [__proto__], integers of magnitude at most 2^53) within the
    engine's depth limit, [ssrDispatch] calls no
    user code and returns a text whose run in the browser makes exactly one
    host call: [window.dispatcher.toReplay.push] with the Replay Entry of the
    name, the handler closure (not called), the arguments, [this] and
    [event]. *)
Theorem ssrDispatch_replays_one_entry (uf : nat -> jsv -> list jsv -> option jsv) (limit fid : nat)
    (name src : string) (hps : list (string * jsv)) (ps body : list tree) (args : list json)
    (tr : list call) :
  assoc "toString" hps = None -> safe_name name = true -> handler_closure src = Some (ps, body) ->
  forallb jgood args = true -> jdepth (JsArr args) <= limit ->
  exists text,
    ssrDispatch uf limit (JStr name) (JFun fid src hps) (map to_jsv args) tr = SOk text tr /\
    run_handler text = ORan [mkHCall queue_push [replay_entry name (JClo ps body) (to_jsv (JsArr args))]].
Proof.
  intros Hts Hn Hh Hg Hd. eexists. split.
  - apply ssrDispatch_text; [exact Hts | now apply jgood_args_jnums | exact Hd].
  - apply run_dispatch; assumption.
Qed.

Lemma ssrDispatch_replays_one_entry_witness :
  exists text,
    ssrDispatch demo_user_fn 10 (JStr "go") (JFun 1 "x => x" []) (map to_jsv [JsNum 1; JsStr "s"]) [] =
      SOk text [] /\
    run_handler text =
      ORan [mkHCall queue_push [replay_entry "go" (JClo x_tree x_tree) (to_jsv (JsArr [JsNum 1; JsStr "s"]))]].
Proof.
  apply (ssrDispatch_replays_one_entry demo_user_fn 10 1 "go" "x => x" [] x_tree x_tree
           [JsNum 1; JsStr "s"] []); first [reflexivity | cbn; lia].
Defined.

(** C1, counterexample: a method's source [h(e, a) { a(); }] between
    parentheses is no expression; the browser rejects the whole text and
    nothing is pushed. *)
Lemma ssrDispatch_method_handler_rejected :
  exists text,
    ssrDispatch demo_user_fn 10 (JStr "go") (JFun 1 "h(e, a) { a(); }" []) [] [] = SOk text [] /\
    run_handler text = OSyntaxError.
Proof. eexists. split; [reflexivity | vm_compute; reflexivity]. Qed.

(** C3: for plain JSON arguments (distinct keys, no key [__proto__],
    integers of magnitude at most 2^53) and a handler the browser reads as a
    function expression, the pushed entry carries the arguments unchanged. *)
Theorem ssrDispatch_args_round_trip (uf : nat -> jsv -> list jsv -> option jsv) (limit fid : nat)
    (name src : string) (ps body : list tree) (args : list json) :
  safe_name name = true -> handler_closure src = Some (ps, body) ->
  forallb jgood args = true -> jdepth (JsArr args) <= limit ->
  exists text, ssrDispatch uf limit (JStr name) (JFun fid src []) (map to_jsv args) [] = SOk text [] /\
    exists h a, run_handler text = ORan [mkHCall queue_push [replay_entry name h a]] /\
                a = JArr (map to_jsv args).
Proof.
  intros Hn Hh Hg Hd. eexists. split.
  - apply ssrDispatch_text; [reflexivity | now apply jgood_args_jnums | exact Hd].
  - exists (JClo ps body), (to_jsv (JsArr args)). split; [apply run_dispatch; assumption | reflexivity].
Qed.

Lemma ssrDispatch_args_round_trip_witness :
  exists text, ssrDispatch demo_user_fn 10 (JStr "go") (JFun 1 "x => x" [])
                 (map to_jsv [JsObj [("k", JsArr [JsBool true; JsNull])]]) [] = SOk text [] /\
    exists h a, run_handler text = ORan [mkHCall queue_push [replay_entry "go" h a]] /\
                a = JArr (map to_jsv [JsObj [("k", JsArr [JsBool true; JsNull])]]).
Proof.
  apply (ssrDispatch_args_round_trip demo_user_fn 10 1 "go" "x => x" x_tree x_tree
           [JsObj [("k", JsArr [JsBool true; JsNull])]]); first [reflexivity | cbn; lia].
Defined.

(** C3, failing input: the argument object with an own property
    [__proto__] (as [JSON.parse] makes it). The text is read as an object
    literal, where [__proto__: 1] names the prototype and makes no
    property: the pushed arguments are [[{}]]. *)
Lemma ssrDispatch_proto_key_lost :
  exists text,
    ssrDispatch demo_user_fn 10 (JStr "go") (JFun 1 "x => x" []) [JObj PObject [("__proto__", JNum 1)]] [] =
      SOk text [] /\
    run_handler text = ORan [mkHCall queue_push [replay_entry "go" (JClo x_tree x_tree) (JArr [JObj PObject []])]] /\
    JArr [JObj PObject []] <> JArr [JObj PObject [("__proto__", JNum 1)]].
Proof. eexists. split; [reflexivity | split; [vm_compute; reflexivity | discriminate]]. Qed.

(** The name [a], backslash, [n], [b]. *)
Definition backslash_name : string := String "a" (String "\" (String "n" (String "b" EmptyString))).

(** C4, failing input: the name is put between quotes unescaped, so its
    backslash starts an escape: the pushed name has a line feed where the
    given one has a backslash and [n]. *)
Lemma ssrDispatch_name_escape_read :
  exists text,
    ssrDispatch demo_user_fn 10 (JStr backslash_name) (JFun 1 "x => x" []) [] [] = SOk text [] /\
    run_handler text =
      ORan [mkHCall queue_push
              [replay_entry (String "a" (String (ascii_of_nat 10) (String "b" EmptyString)))
                 (JClo x_tree x_tree) (JArr [])]] /\
    String "a" (String (ascii_of_nat 10) (String "b" EmptyString)) <> backslash_name.
Proof. eexists. split; [reflexivity | split; [vm_compute; reflexivity | discriminate]]. Qed.

(** C6, failing input: a name that closes the quote runs its own code on
    the queue: the text empties it with [splice(0)] before the push. *)
Lemma ssrDispatch_name_injects_splice :
  exists text,
    ssrDispatch demo_user_fn 10 (JStr "';window.dispatcher.toReplay.splice(0);'") (JFun 1 "x => x" []) [] [] =
      SOk text [] /\
    run_handler text =
      ORan [mkHCall ["window"; "dispatcher"; "toReplay"; "splice"] [JNum 0];
            mkHCall queue_push [replay_entry EmptyString (JClo x_tree x_tree) (JArr [])]].
Proof. eexists. split; [reflexivity | vm_compute; reflexivity]. Qed.

(** C8 (as amended): when the name is a string, the handler is a function
    value without an own [toString] and the arguments are plain JSON values
    (their numbers integers of magnitude at most 2^53) within the depth
    limit, [ssrDispatch] calls no user code (the call record is unchanged,
    whatever the user functions do) and its text is fixed by the name, the
    handler's source text and the arguments. *)
Theorem ssrDispatch_pure_on_plain_args (uf : nat -> jsv -> list jsv -> option jsv) (limit fid : nat)
    (name src : string) (hps : list (string * jsv)) (args : list json) (tr : list call) :
  assoc "toString" hps = None -> jnums (JsArr args) = true -> jdepth (JsArr args) <= limit ->
  ssrDispatch uf limit (JStr name) (JFun fid src hps) (map to_jsv args) tr =
  SOk (dispatch_text name src (json_text (JsArr args))) tr.
Proof. intros Hts Hs Hd. apply ssrDispatch_text; assumption. Qed.

Lemma ssrDispatch_pure_on_plain_args_witness :
  ssrDispatch demo_user_fn 10 (JStr "go") (JFun 1 "x => x" [("name", JStr "f")]) (map to_jsv [JsNum 2]) [] =
  SOk (dispatch_text "go" "x => x" (json_text (JsArr [JsNum 2]))) [].
Proof.
  apply (ssrDispatch_pure_on_plain_args demo_user_fn 10 1 "go" "x => x" [("name", JStr "f")] [JsNum 2] []);
    first [reflexivity | cbn; lia].
Defined.

(** The argument of the C8 counterexample: an object with a [toJSON]
    method. *)
Definition to_json_arg : jsv := JObj PObject [("toJSON", JFun 7 "function () { return 1; }" [])].

(** C8, counterexample: [JSON.stringify] calls the argument's [toJSON]
    method (with the key [0]): [ssrDispatch] runs user code. *)
Lemma ssrDispatch_calls_toJSON :
  exists text,
    ssrDispatch demo_user_fn 10 (JStr "go") (JFun 1 "x => x" []) [to_json_arg] [] =
    SOk text [mkCall 7 to_json_arg [JStr "0"]].
Proof. eexists. reflexivity. Qed.

End DispatchClaims.

Module DispatchExtras.
Import JS Server Browser Json DispatchFacts.
Local Open Scope list_scope.


Section Ser.
Variable user_fn : nat -> jsv -> list jsv -> option jsv.







End Ser.

Lemma to_string_prim (uf : nat -> jsv -> list jsv -> option jsv) (v : jsv) (s : string) (tr : list call) :
  is_primitive v = true -> prim_to_string v = Some s -> to_string uf v tr = SOk s tr.
Proof.
  intros Hp Hs. destruct v; try discriminate Hp; cbn [to_string]; rewrite Hs; reflexivity.
Qed.

Lemma all_digits_safe (s : string) : all_digits s = true -> safe_name s = true.
Proof.
  induction s as [|c s IH]; [reflexivity|]. cbn [all_digits safe_name].
  intros H. apply andb_prop in H as [Hc Hs]. rewrite (IH Hs), andb_true_r.
  unfold is_digit in Hc. apply andb_prop in Hc as [H1 H2].
  apply Nat.leb_le in H1, H2. unfold safe_char, is_line_terminator.
  destruct (Nat.eqb_spec (code c) 39), (Nat.eqb_spec (code c) 92),
           (Nat.eqb_spec (code c) 10), (Nat.eqb_spec (code c) 13); simpl; try lia; reflexivity.
Qed.

Lemma safe_n_to_decimal (n : N) : safe_name (n_to_decimal n) = true.
Proof.
  destruct (n_to_decimal_digits n) as [c [s [E [Hc Hs]]]]. rewrite E.
  apply all_digits_safe. cbn [all_digits]. now rewrite Hc, Hs.
Qed.

(** The primitives other than strings. *)
Definition nonstring_primitive (v : jsv) : bool :=
  match v with JUndef | JNull | JBool _ | JNum _ => true | _ => false end.

Lemma safe_prim_to_string (v : jsv) (s : string) :
  nonstring_primitive v = true -> prim_to_string v = Some s -> safe_name s = true.
Proof.
  destruct v as [| |b|z| | | | | |]; try discriminate; intros _ Hs; cbn [prim_to_string] in Hs;
    try (injection Hs as <-; reflexivity).
  - destruct b; injection Hs as <-; reflexivity.
  - unfold num_to_string in Hs. destruct (num_safe z); [|discriminate]. injection Hs as <-.
    destruct z as [|p|p]; [reflexivity | apply safe_n_to_decimal |].
    cbn [z_to_decimal safe_name]. rewrite safe_n_to_decimal. reflexivity.
Qed.

Lemma ssrDispatch_prim_name (uf : nat -> jsv -> list jsv -> option jsv) (limit : nat) (nm h : jsv)
    (s : string) (args : list jsv) (tr : list call) :
  is_primitive nm = true -> prim_to_string nm = Some s ->
  ssrDispatch uf limit nm h args tr = ssrDispatch uf limit (JStr s) h args tr.
Proof.
  intros Hp Hs. unfold ssrDispatch. unfold sbind at 1 3. rewrite (to_string_prim _ _ _ _ Hp Hs). reflexivity.
Qed.

(** The scope in which the generated text evaluates its handler
    expression: [name] initialised, [handler] and [args] not yet. *)
Definition handler_env (name : string) : env :=
  [[("name", Some (JStr name)); ("handler", None); ("args", None)]; [];
   [("event", Some (JHost ["event"]))]].

Lemma parse_block_inner_gen (k : nat) (name : string) (hts g : list tree) (he e : expr) :
  parse_expr k false [TTok (TStr name)] = POk (EStr name) ->
  parse_expr k false [TGroup Paren hts] = POk he ->
  parse_expr k false [TGroup Square g] = POk e ->
  parse_expr k false push_trees = POk push_call ->
  parse_block (S k) (dispatch_inner name hts [TGroup Square g]) =
  POk [SConst "name" (EStr name); SConst "handler" he; SConst "args" e; SExpr push_call].
Proof.
  intros H1 H2 H3 H4. cbn [parse_block]. unfold block_step. simpl. rewrite H1, H2, H3. unfold push_trees in H4. simpl in H4. rewrite H4.
  reflexivity.
Qed.

Lemma eval_dispatch_gen (name : string) (he e : expr) (hv jv : jsv) :
  eval_expr (handler_env name) he [] = BOk hv [] ->
  (forall en tr, eval_expr en e tr = BOk jv tr) ->
  exists en', eval_stmts [[]; [("event", Some (JHost ["event"]))]]
    [SBlock [SConst "name" (EStr name); SConst "handler" he; SConst "args" e; SExpr push_call]] [] =
  BOk en' [mkHCall queue_push [replay_entry name hv jv]].
Proof.
  intros Hh He. eexists. simpl. unfold bbind, bret. simpl.
  unfold handler_env in Hh. rewrite Hh. rewrite He. simpl.
  unfold eval_ident, get_member, call_value. simpl. reflexivity.
Qed.

Lemma run_dispatch_gen (name src : string) (htoks : list token) (hts : list tree) (he : expr)
    (hv : jsv) (args : list json) :
  safe_name name = true -> lex src = LexOk htoks -> trees htoks = Some hts ->
  (forall m, parse_expr (S (S (S m))) false [TGroup Paren hts] = POk he) ->
  eval_expr (handler_env name) he [] = BOk hv [] ->
  forallb jgood args = true ->
  run_handler (dispatch_text name src (json_text (JsArr args))) =
  ORan [mkHCall queue_push [replay_entry name hv (to_jsv (JsArr args))]].
Proof.
  intros Hn Es Et Hp Hh Hg.
  unfold run_handler. rewrite (lex_dispatch_text name src htoks (JsArr args) Hn Es).
  rewrite (trees_text name htoks _ hts _ (trees_balanced _ _ Et) (bal_json (JsArr args))).
  rewrite text_toks_length.
  pose proof (jdepth_tokens (JsArr args)) as Hd.
  remember (length (flatten (jtrees (JsArr args)))) as J eqn:EJ.
  replace (S (41 + length htoks + J)) with (S (S (S (S (S (S (36 + length htoks + J))))))) by lia.
  assert (Hgv : jgood (JsArr args) = true) by exact Hg.
  set (k0 := 36 + length htoks + J).
  change (dispatch_inner name hts (jtrees (JsArr args)))
    with (dispatch_inner name hts [TGroup Square (join_trees (map jtrees args))]).
  rewrite (parse_block_group _ _ _
    (parse_block_inner_gen (S (S (S (S k0)))) name hts (join_trees (map jtrees args)) he (jexpr (JsArr args))
       (parse_name (S (S (S k0))) name) (Hp (S k0))
       (parse_json (JsArr args) (S (S (S (S k0)))) false Hgv ltac:(unfold k0; lia)) (parse_push (S k0)))).
  cbn [const_names map].
  destruct (eval_dispatch_gen name he (jexpr (JsArr args)) hv (to_jsv (JsArr args)) Hh
              (fun en tr => eval_json (JsArr args) en tr Hgv)) as [en' He].
  rewrite He. reflexivity.
Qed.

(** The text of a generated handler with a string name. *)
Lemma ssrDispatch_str_shape (uf : nat -> jsv -> list jsv -> option jsv) (limit : nat) (name : string)
    (h : jsv) (args : list jsv) (tr tr' : list call) (t : string) :
  ssrDispatch uf limit (JStr name) h args tr = SOk t tr' ->
  exists s2 j, t = dispatch_text name s2 j.
Proof.
  unfold ssrDispatch. unfold sbind at 1. cbn [to_string prim_to_string prim_result]. unfold sret at 1.
  unfold sbind. destruct (to_string uf h tr) as [s2 tr1|e tr1]; [|discriminate].
  destruct (json_stringify uf limit (JArr args) tr1) as [o tr2|e tr2]; [|discriminate].
  unfold sret. intros H. injection H as <- _. eexists _, _. reflexivity.
Qed.

Lemma line_terminator_stops (acc b : string) (c : ascii) (ts : list token) :
  is_line_terminator c = true -> run_chars (LStr squote acc) (String c b) ts = LSyntax.
Proof.
  intros Hc. cbn [run_chars].
  assert (E : c = chr 10 \/ c = chr 13).
  { unfold is_line_terminator in Hc. apply orb_prop in Hc as [H|H]; apply Nat.eqb_eq in H;
      unfold chr; rewrite <- H; unfold code; rewrite ascii_nat_embedding; auto. }
  destruct E as [-> | ->]; reflexivity.
Qed.

Lemma lex_name_line_terminator (a b s2 j : string) (c : ascii) :
  safe_name a = true -> is_line_terminator c = true ->
  run_handler (dispatch_text (a ++ String c b) s2 j) = OSyntaxError.
Proof.
  intros Ha Hc. unfold run_handler, lex, dispatch_text.
  rewrite (run_chars_seg3 _ _ _ _ _ _ _ [] lex_seg1).
  rewrite (string_app_assoc a (String c b)).
  rewrite (run_chars_app_ok _ _ _ _ _ _ (safe_name_chars a EmptyString Ha)).
  rewrite string_app_cons. rewrite (line_terminator_stops _ _ _ _ Hc). reflexivity.
Qed.

Lemma trees_of_balanced (toks : list token) (ts : list tree) :
  balanced toks ts -> trees toks = Some ts.
Proof. intros H. unfold trees. rewrite (H [] []). reflexivity. Qed.

(** The JSON values whose [ToString] is their JSON text. *)
Definition json_scalar (v : json) : bool :=
  match v with JsNull | JsBool _ => true | JsNum z => num_safe z | _ => false end.

Lemma lex_scalar (v : json) : json_scalar v = true -> lex (json_text v) = LexOk (flatten (jtrees v)).
Proof.
  destruct v as [| b | z | s | l | ps]; try discriminate; intros _.
  - reflexivity.
  - destruct b; reflexivity.
  - destruct z as [|p|p]; [reflexivity| |];
      destruct (n_to_decimal_digits (Npos p)) as [c [s [E [Hc Hs]]]];
      cbn [json_text jtrees num_trees z_to_decimal flatten map concat flat]; rewrite E;
      unfold lex; cbn [run_chars]; unfold step at 1.
    + rewrite (digit_normal_step c Hc). cbn [List.app].
      rewrite (num_chars _ _ Hs). cbn [finish]. rewrite string_app_cons, string_app_nil_l. reflexivity.
    + replace (normal_step "-"%char) with (LOk LNormal [TPunct "-"%char]) by reflexivity.
      cbv beta iota. unfold step at 1.
      rewrite (digit_normal_step c Hc). cbn [List.app].
      rewrite run_chars_acc, (num_chars _ _ Hs). cbn [finish]. rewrite string_app_cons, string_app_nil_l.
      reflexivity.
Qed.

Lemma parse_scalar_paren (v : json) (m : nat) :
  json_scalar v = true -> parse_expr (S (S (S m))) false [TGroup Paren (jtrees v)] = POk (jexpr v).
Proof.
  destruct v as [| b | z | s | l | ps]; try discriminate; intros _.
  - reflexivity.
  - destruct b; reflexivity.
  - destruct z; reflexivity.
Qed.

Lemma json_scalar_good (v : json) : json_scalar v = true -> jgood v = true.
Proof. destruct v; try discriminate; intros H; [reflexivity | reflexivity | exact H]. Qed.

Lemma run_scalar_handler (name : string) (v : json) (args : list json) :
  safe_name name = true -> json_scalar v = true -> forallb jgood args = true ->
  run_handler (dispatch_text name (json_text v) (json_text (JsArr args))) =
  ORan [mkHCall queue_push [replay_entry name (to_jsv v) (to_jsv (JsArr args))]].
Proof.
  intros Hn Hv Hg.
  apply (run_dispatch_gen name (json_text v) (flatten (jtrees v)) (jtrees v) (jexpr v)).
  - exact Hn.
  - exact (lex_scalar v Hv).
  - exact (trees_of_balanced _ _ (bal_json v)).
  - intros m. exact (parse_scalar_paren v m Hv).
  - exact (eval_json v _ _ (json_scalar_good v Hv)).
  - exact Hg.
Qed.

Lemma run_undefined_handler (name : string) (args : list json) :
  safe_name name = true -> forallb jgood args = true ->
  run_handler (dispatch_text name "undefined" (json_text (JsArr args))) =
  ORan [mkHCall queue_push [replay_entry name JUndef (to_jsv (JsArr args))]].
Proof.
  intros Hn Hg.
  apply (run_dispatch_gen name "undefined" [TIdent "undefined"] [TTok (TIdent "undefined")]
           (EIdent "undefined")); try reflexivity; assumption.
Qed.

(** [ssrDispatch] when both conversions by [ToString] return without
    calling user code. *)
Lemma ssrDispatch_conv_text (uf : nat -> jsv -> list jsv -> option jsv) (limit : nat) (nm h : jsv)
    (s1 s2 : string) (args : list json) (tr : list call) :
  to_string uf nm tr = SOk s1 tr -> to_string uf h tr = SOk s2 tr ->
  jnums (JsArr args) = true -> jdepth (JsArr args) <= limit ->
  ssrDispatch uf limit nm h (map to_jsv args) tr = SOk (dispatch_text s1 s2 (json_text (JsArr args))) tr.
Proof.
  intros H1 H2 Hs Hd. unfold ssrDispatch. unfold sbind at 1. rewrite H1.
  unfold sbind at 1. rewrite H2. unfold sbind, json_stringify.
  change (JArr (map to_jsv args)) with (to_jsv (JsArr args)). rewrite ser_json by (exact Hs || exact Hd).
  reflexivity.
Qed.





(** A user function for the examples that throws whenever it is called. *)
Definition throwing_user_fn (fid : nat) (this : jsv) (args : list jsv) : option jsv := None.

(** The trees of the example handler source [x => x]. *)
Definition x_param : list tree := [TTok (TIdent "x")].

Lemma nonstring_is_primitive (v : jsv) : nonstring_primitive v = true -> is_primitive v = true.
Proof. destruct v; try discriminate; reflexivity. Qed.





(** X5, ssrDispatch, a name that is not a string: [undefined], [null], a
    boolean or an integer of magnitude at most 2^53 given as the name is
    converted by [ToString] to [s]; the pushed entry carries that string
    ([undefined], [null], [true], [false], the decimal digits after a minus
    sign for a negative number). *)
Theorem ssrDispatch_primitive_name (uf : nat -> jsv -> list jsv -> option jsv) (limit fid : nat)
    (nm : jsv) (s : string) (src : string) (hps : list (string * jsv)) (ps body : list tree)
    (args : list json) (tr : list call) :
  nonstring_primitive nm = true -> prim_to_string nm = Some s -> assoc "toString" hps = None ->
  handler_closure src = Some (ps, body) ->
  forallb jgood args = true -> jdepth (JsArr args) <= limit ->
  exists text,
    ssrDispatch uf limit nm (JFun fid src hps) (map to_jsv args) tr = SOk text tr /\
    run_handler text =
      ORan [mkHCall queue_push [replay_entry s (JClo ps body) (to_jsv (JsArr args))]].
Proof.
  intros Hp Hs Hts Hh Hg Hd. eexists. split.
  - apply ssrDispatch_conv_text; [| | now apply jgood_args_jnums | exact Hd].
    + apply to_string_prim; [apply nonstring_is_primitive, Hp | exact Hs].
    + cbn [to_string]. rewrite Hts. reflexivity.
  - apply run_dispatch; [exact (safe_prim_to_string nm s Hp Hs) | exact Hh | exact Hg].
Qed.

Lemma ssrDispatch_primitive_name_witness :
  exists text,
    ssrDispatch throwing_user_fn 10 (JNum (-12)) (JFun 1 "x => x" []) (map to_jsv [JsBool true]) [] =
      SOk text [] /\
    run_handler text =
      ORan [mkHCall queue_push [replay_entry "-12" (JClo x_param x_param) (to_jsv (JsArr [JsBool true]))]].
Proof.
  apply (ssrDispatch_primitive_name throwing_user_fn 10 1 (JNum (-12)) "-12" "x => x" [] x_param x_param
           [JsBool true] []); first [reflexivity | cbn; lia].
Defined.

(** X6, ssrDispatch, a handler that is not a function: [undefined], [null], a
    boolean or an integer of magnitude at most 2^53 given as the handler is
    written into the text as its [ToString] [s], which the browser reads
    back as the same value; the pushed entry carries it as its handler. *)
Theorem ssrDispatch_primitive_handler (uf : nat -> jsv -> list jsv -> option jsv) (limit : nat)
    (name : string) (hv : jsv) (s : string) (args : list json) (tr : list call) :
  safe_name name = true -> nonstring_primitive hv = true -> prim_to_string hv = Some s ->
  forallb jgood args = true -> jdepth (JsArr args) <= limit ->
  exists text,
    ssrDispatch uf limit (JStr name) hv (map to_jsv args) tr = SOk text tr /\
    run_handler text = ORan [mkHCall queue_push [replay_entry name hv (to_jsv (JsArr args))]].
Proof.
  intros Hn Hp Hs Hg Hd. exists (dispatch_text name s (json_text (JsArr args))). split.
  - apply ssrDispatch_conv_text;
      [reflexivity | apply to_string_prim; [apply nonstring_is_primitive, Hp | exact Hs]
      | now apply jgood_args_jnums | exact Hd].
  - destruct hv as [| |b|z| | | | | |]; try discriminate; cbn [prim_to_string] in Hs.
    + injection Hs as <-. exact (run_undefined_handler name args Hn Hg).
    + injection Hs as <-. exact (run_scalar_handler name JsNull args Hn eq_refl Hg).
    + injection Hs as <-. destruct b; [exact (run_scalar_handler name (JsBool true) args Hn eq_refl Hg) | exact (run_scalar_handler name (JsBool false) args Hn eq_refl Hg)].
    + unfold num_to_string in Hs. destruct (num_safe z) eqn:Ez; [|discriminate].
      injection Hs as <-. exact (run_scalar_handler name (JsNum z) args Hn Ez Hg).
Qed.

Lemma ssrDispatch_primitive_handler_witness :
  exists text,
    ssrDispatch throwing_user_fn 10 (JStr "go") JUndef (map to_jsv [JsNum 1]) [] = SOk text [] /\
    run_handler text = ORan [mkHCall queue_push [replay_entry "go" JUndef (to_jsv (JsArr [JsNum 1]))]].
Proof.
  apply (ssrDispatch_primitive_handler throwing_user_fn 10 "go" JUndef "undefined" [JsNum 1] []);
    first [reflexivity | cbn; lia].
Defined.

(** X7, ssrDispatch, a line break in the name: when the name has a line feed or
    carriage return (before any quote or backslash), the text
    [ssrDispatch] returns, whatever the handler and the arguments, is
    rejected by the browser as a syntax error, so nothing is pushed. *)
Theorem ssrDispatch_line_break_name (uf : nat -> jsv -> list jsv -> option jsv) (limit : nat)
    (a b : string) (c : ascii) (h : jsv) (args : list jsv) (tr tr' : list call) (text : string) :
  safe_name a = true -> is_line_terminator c = true ->
  ssrDispatch uf limit (JStr (a ++ String c b)) h args tr = SOk text tr' ->
  run_handler text = OSyntaxError.
Proof.
  intros Ha Hc Hs. destruct (ssrDispatch_str_shape _ _ _ _ _ _ _ _ Hs) as [s2 [j ->]].
  exact (lex_name_line_terminator a b s2 j c Ha Hc).
Qed.

Lemma ssrDispatch_line_break_name_witness :
  exists text,
    ssrDispatch throwing_user_fn 10 (JStr ("go" ++ String (chr 10) "now")) (JFun 1 "x => x" [])
      (map to_jsv [JsNum 1]) [] = SOk text [] /\
    run_handler text = OSyntaxError.
Proof.
  eexists. split; [reflexivity|].
  apply (ssrDispatch_line_break_name throwing_user_fn 10 "go" "now" (chr 10) (JFun 1 "x => x" [])
           (map to_jsv [JsNum 1]) [] []); reflexivity.
Defined.








(** X10, ssrDispatch, an object as the name: an ordinary object with no
    [toString] of its own or in its own prototypes is converted to
    [[object Object]], which is the name the pushed entry carries. *)
Theorem ssrDispatch_object_name (uf : nat -> jsv -> list jsv -> option jsv) (limit fid : nat)
    (pr : jproto) (nps : list (string * jsv)) (src : string) (hps : list (string * jsv))
    (ps body : list tree) (args : list json) (tr : list call) :
  lookup (JObj pr nps) "toString" = None -> inherits_object_prototype (JObj pr nps) = true ->
  assoc "toString" hps = None -> handler_closure src = Some (ps, body) ->
  forallb jgood args = true -> jdepth (JsArr args) <= limit ->
  exists text,
    ssrDispatch uf limit (JObj pr nps) (JFun fid src hps) (map to_jsv args) tr = SOk text tr /\
    run_handler text =
      ORan [mkHCall queue_push [replay_entry "[object Object]" (JClo ps body) (to_jsv (JsArr args))]].
Proof.
  intros Hl Hi Hts Hh Hg Hd. eexists. split.
  - apply ssrDispatch_conv_text; [| | now apply jgood_args_jnums | exact Hd].
    + cbn [to_string]. rewrite Hl. cbv beta iota. rewrite Hi. reflexivity.
    + cbn [to_string]. rewrite Hts. reflexivity.
  - apply run_dispatch; [reflexivity | exact Hh | exact Hg].
Qed.

Lemma ssrDispatch_object_name_witness :
  exists text,
    ssrDispatch throwing_user_fn 10 (JObj PObject [("id", JNum 7)]) (JFun 1 "x => x" [])
      (map to_jsv []) [] = SOk text [] /\
    run_handler text =
      ORan [mkHCall queue_push [replay_entry "[object Object]" (JClo x_param x_param) (to_jsv (JsArr []))]].
Proof.
  apply (ssrDispatch_object_name throwing_user_fn 10 1 PObject [("id", JNum 7)] "x => x" [] x_param x_param
           [] []); first [reflexivity | cbn; lia].
Defined.



End DispatchExtras.

Module PropsExtras.
Import Props PropsFacts.

(** The input is an object whose [wire] property is a callable object. *)
Definition wire_callable (h : heap) (input : value) : bool :=
  match input with
  | VRef li =>
      match get h li "wire" with
      | VRef l => match h !! l with Some o => callable o | None => false end
      | _ => false
      end
  | _ => false
  end.

Lemma grows_fresh_absent (h h' : heap) (l : loc) :
  dom h ⊆ dom h' -> (l = actions_loc h' \/ l = props_loc h') -> h !! l = None.
Proof.
  intros Hsub Hl. destruct (h !! l) as [o|] eqn:E; [|reflexivity].
  exfalso. assert (Hin : l ∈ dom h') by (apply Hsub; apply elem_of_dom; eauto).
  apply elem_of_dom in Hin as [o' Ho'].
  destruct (run_fresh_not_old h' l o' Ho') as [H1 H2]. destruct Hl; contradiction.
Qed.

(** [wire_fresh] only adds objects. *)
Lemma wire_fresh_grows (l : loc) (args : list value) (h : heap) (r : value) (h' : heap) :
  wire_fresh l args h = Some (r, h') -> dom h ⊆ dom h'.
Proof. unfold wire_fresh. intros H. injection H as _ <-. rewrite dom_insert. set_solver. Qed.

Section Extras.
Variable ext_call : loc -> list value -> heap -> option (value * heap).

Lemma uncallable_wire_throws (input : value) (w : world) :
  wire_callable (wheap w) input = false ->
  ssrDefaultProps ext_call input w = Throw "TypeError" w.
Proof.
  intros Hw. unfold ssrDefaultProps, bind, get_prop, call.
  destruct input as [| | | | |li]; try reflexivity.
  cbn [wire_callable] in Hw.
  destruct (get (wheap w) li "wire") as [| | | | |l]; try reflexivity.
  destruct (wheap w !! l) as [o|]; [|reflexivity].
  rewrite Hw. reflexivity.
Qed.

(** X1, ssrDefaultProps, no callable [wire]: when the input is [undefined],
    [null], a primitive, or an object whose [wire] property is missing or
    not a callable object, [ssrDefaultProps] throws a TypeError before it
    calls anything: the call log is as before, and so is the heap, up to
    the two empty objects the code creates before [wire()], which no other
    code can reach. *)
Theorem ssrDefaultProps_uncallable_wire (input : value) (w : world) :
  wire_callable (wheap w) input = false ->
  ssrDefaultProps ext_call input w = Throw "TypeError" w.
Proof. apply uncallable_wire_throws. Qed.

(** X2, ssrDefaultProps, fresh objects: when the functions it is given never
    remove objects from the heap, a successful call returns a props object
    and an [actions] object that are distinct and that did not exist before
    the call; no two calls share them. *)
Theorem ssrDefaultProps_fresh_objects (input : value) (w w' : world) (v : value) :
  (forall l args h r h', ext_call l args h = Some (r, h') -> dom h ⊆ dom h') ->
  ssrDefaultProps ext_call input w = Ok v w' ->
  exists p a, v = VRef p /\ get (wheap w') p "actions" = VRef a /\ p <> a /\
    wheap w !! p = None /\ wheap w !! a = None.
Proof.
  intros Hgrow Hrun.
  destruct (wire_callable (wheap w) input) eqn:Hw.
  2:{ rewrite (uncallable_wire_throws input w Hw) in Hrun. discriminate. }
  destruct input as [| | | | |li]; try discriminate. cbn [wire_callable] in Hw.
  destruct (get (wheap w) li "wire") as [| | | | |wl] eqn:Hwire; try discriminate.
  destruct (wheap w !! wl) as [ow|] eqn:Hwl; [|discriminate].
  destruct (ext_call wl [] (wheap w)) as [[r h']|] eqn:He.
  - rewrite (ssrDefaultProps_run ext_call w li wl _ _ r ow h' eq_refl eq_refl Hwire Hwl Hw He) in Hrun.
    injection Hrun as <- <-. exists (props_loc h'), (actions_loc h').
    pose proof (Hgrow _ _ _ _ _ He) as Hsub.
    split; [reflexivity|]. split.
    + cbn [wheap]. rewrite (get_null_proto _ _ _ _ _ (run_lookup_props h' _ _ _ _)). reflexivity.
    + split; [apply props_loc_ne|]. split; apply (grows_fresh_absent _ h'); auto.
  - unfold ssrDefaultProps, bind, get_prop, call in Hrun. rewrite Hwire, Hwl, Hw, He in Hrun.
    discriminate.
Qed.

End Extras.

Lemma ssrDefaultProps_uncallable_wire_witness :
  ssrDefaultProps wire_fresh (VRef 3%N) demo_world = Throw "TypeError" demo_world.
Proof. apply (ssrDefaultProps_uncallable_wire wire_fresh (VRef 3%N) demo_world). vm_compute. reflexivity. Defined.

Lemma ssrDefaultProps_fresh_objects_witness :
  exists v w', ssrDefaultProps wire_fresh (VRef 1%N) demo_world = Ok v w' /\
    exists p a, v = VRef p /\ get (wheap w') p "actions" = VRef a /\ p <> a /\
      wheap demo_world !! p = None /\ wheap demo_world !! a = None.
Proof.
  destruct (ssrDefaultProps wire_fresh (VRef 1%N) demo_world) as [v w'|e w'] eqn:E.
  - exists v, w'. split; [reflexivity|].
    exact (ssrDefaultProps_fresh_objects wire_fresh (VRef 1%N) demo_world w' v wire_fresh_grows E).
  - vm_compute in E. discriminate.
Defined.

End PropsExtras.
